(** * dispatch-bidder: the proxy-bidding auction of [auction.go]

    A shallow embedding of [Bidder], [Auction], [NewAuction], [PlaceBid],
    [DetermineWinner] and their helpers, followed by the properties the
    specification states about them.

    Modelling choices, all read off the Go source:
    - money is [float64]: Rocq's primitive binary64 [float], with the IEEE 754
      comparisons [<?], [<=?], [=?] and the rounded addition [+];
    - [*Bidder] is an address [ptr]; the records live in a heap that maps every
      address to a record, so two pointers to one record alias; no pointer is
      [nil];
    - [time.Time] is an instant on the monotonic clock, an integer; the k-th
      call of [time.Now] returns [clock k], and the world counts the calls;
    - [uuid.UUID] (16 bytes) is a number; [uuid.New] is the value it returns;
    - the errors built with [fmt.Errorf] are constructors that carry the
      values the message prints;
    - [sync.RWMutex] is not modelled: every operation below runs alone. *)

From Stdlib Require Import ZArith Floats.
From stdpp Require Import base decidable functions list gmap strings.

(** ** Data model *)

Definition UUID := N.
Definition Time := Z.
Definition ptr := nat.

Record Bidder := mkBidder {
  ID : UUID;
  Name : string;
  StartingBid : float;
  MaxBid : float;
  CurrentBid : float;
  AutoIncrement : float;
  LastBidTime : Time
}.

Record Auction := mkAuction {
  AuctionID : UUID;
  Bidders : list ptr
}.

Record NewAuctionConfig := mkConfig {
  ConfigBidders : list ptr
}.

Definition Heap := ptr → Bidder.

(** The mutable state: the bidder records and the number of clock reads. *)
Record World := mkWorld {
  heap : Heap;
  ticks : nat
}.

(** ** Errors *)

(** [validateBidder]'s three messages. *)
Inductive BidderError :=
| InvalidStartingBid (startingBid : float)
| InvalidMaxBid (maxBid startingBid : float)
| InvalidIncrement (autoIncrement : float).

(** [validateAuctionData]'s messages; the last wraps a [BidderError]. *)
Inductive AuctionDataError :=
| InsufficientBidders
| DuplicateBidder (id : UUID)
| InvalidBidderData (id : UUID) (err : BidderError).

(** [NewAuction] wraps with "invalid auction data". *)
Inductive NewAuctionError :=
| InvalidAuctionData (err : AuctionDataError).

(** [PlaceBid]'s three messages. *)
Inductive BidError :=
| BidBelowStartingBid (bidAmount startingBid : float)
| BidAboveMaxBid (bidAmount maxBid : float)
| BidNotHigherThanCurrent (bidAmount currentBid : float).

(** ** Field assignment through a pointer *)

Definition withCurrentBid (v : float) (b : Bidder) : Bidder :=
  mkBidder (ID b) (Name b) (StartingBid b) (MaxBid b) v (AutoIncrement b)
           (LastBidTime b).

Definition withLastBidTime (t : Time) (b : Bidder) : Bidder :=
  mkBidder (ID b) (Name b) (StartingBid b) (MaxBid b) (CurrentBid b)
           (AutoIncrement b) t.

Definition setCurrentBid (p : ptr) (v : float) (w : World) : World :=
  mkWorld (<[p := withCurrentBid v (heap w p)]> (heap w)) (ticks w).

Definition setLastBidTime (p : ptr) (t : Time) (w : World) : World :=
  mkWorld (<[p := withLastBidTime t (heap w p)]> (heap w)) (ticks w).

(** ** Validation at construction *)

Definition validateBidder (b : Bidder) : option BidderError :=
  if (StartingBid b <=? 0)%float then Some (InvalidStartingBid (StartingBid b))
  else if (MaxBid b <? StartingBid b)%float
       then Some (InvalidMaxBid (MaxBid b) (StartingBid b))
  else if (AutoIncrement b <=? 0)%float
       then Some (InvalidIncrement (AutoIncrement b))
  else None.

(** The loop of [validateAuctionData] over the bidders, with its [seenIDs]. *)
Fixpoint validateBidders (h : Heap) (seenIDs : gmap UUID bool)
    (bidders : list ptr) : option AuctionDataError :=
  match bidders with
  | [] => None
  | bidder :: rest =>
      match seenIDs !! ID (h bidder) with
      | Some _ => Some (DuplicateBidder (ID (h bidder)))
      | None =>
          let seenIDs := <[ID (h bidder) := true]> seenIDs in
          match validateBidder (h bidder) with
          | Some err => Some (InvalidBidderData (ID (h bidder)) err)
          | None => validateBidders h seenIDs rest
          end
      end
  end.

Definition validateAuctionData (h : Heap) (na : NewAuctionConfig)
    : option AuctionDataError :=
  if (length (ConfigBidders na) <=? 1)%nat then Some InsufficientBidders
  else validateBidders h ∅ (ConfigBidders na).

(** [uuid_New] is the identifier [uuid.New()] hands out. *)
Definition NewAuction (uuid_New : UUID) (h : Heap) (na : NewAuctionConfig)
    : NewAuctionError + Auction :=
  match validateAuctionData h na with
  | Some err => inl (InvalidAuctionData err)
  | None => inr (mkAuction uuid_New (ConfigBidders na))
  end.

(** ** Winner determination *)

Definition isWinner (h : Heap) (currentWinner : option ptr) (bidder : ptr)
    : bool :=
  match currentWinner with
  | None => true
  | Some cw =>
      (CurrentBid (h cw) <? CurrentBid (h bidder))%float
      || ((CurrentBid (h bidder) =? CurrentBid (h cw))%float
          && (LastBidTime (h bidder) <? LastBidTime (h cw))%Z)
  end.

(** One iteration of the loop of [DetermineWinner]. *)
Definition scanBidder (h : Heap) (winner : option ptr) (bidder : ptr)
    : option ptr :=
  if isWinner h winner bidder then Some bidder else winner.

Definition DetermineWinner (a : Auction) (h : Heap) : option ptr :=
  fold_left (scanBidder h) (Bidders a) None.

(** ** Bid placement *)

Section Clock.

(** [clock k] is what the k-th call of [time.Now] returns. *)
Variable clock : nat → Time.

Definition time_Now (w : World) : Time * World :=
  (clock (ticks w), mkWorld (heap w) (S (ticks w))).

(** The body of the loop over [a.Bidders] in [PlaceBid]. *)
Definition autoIncrement (bidder : ptr) (w : World) (otherBidder : ptr)
    : World :=
  if negb (ID (heap w otherBidder) =? ID (heap w bidder))%N then
    let newBid :=
      (CurrentBid (heap w otherBidder)
       + AutoIncrement (heap w otherBidder))%float in
    if (newBid <=? MaxBid (heap w otherBidder))%float then
      let w := setCurrentBid otherBidder newBid w in
      let '(now, w) := time_Now w in
      setLastBidTime otherBidder now w
    else w
  else w.

Definition PlaceBid (a : Auction) (bidder : ptr) (bidAmount : float)
    (w : World) : option BidError * World :=
  if (bidAmount <? StartingBid (heap w bidder))%float then
    (Some (BidBelowStartingBid bidAmount (StartingBid (heap w bidder))), w)
  else if (MaxBid (heap w bidder) <? bidAmount)%float then
    (Some (BidAboveMaxBid bidAmount (MaxBid (heap w bidder))), w)
  else if (bidAmount <=? CurrentBid (heap w bidder))%float then
    (Some (BidNotHigherThanCurrent bidAmount (CurrentBid (heap w bidder))), w)
  else
    let w := setCurrentBid bidder bidAmount w in
    let '(now, w) := time_Now w in
    let w := setLastBidTime bidder now w in
    (None, fold_left (autoIncrement bidder) (Bidders a) w).

(** The world between the two halves of an accepted [PlaceBid]: the bid and
    its time are written, the sweep has not started. *)
Definition bidRecorded (bidder : ptr) (bidAmount : float) (w : World)
    : World :=
  let w := setCurrentBid bidder bidAmount w in
  let '(now, w) := time_Now w in
  setLastBidTime bidder now w.

(** ** The driver of [TestAuctionScenarios] *)

(** One pass of the inner loop: every bidder in turn tries its next bid;
    [active] records whether some bid was placed. *)
Fixpoint biddingRound (a : Auction) (bidders : list ptr) (active : bool)
    (w : World) : bool * World :=
  match bidders with
  | [] => (active, w)
  | bidder :: rest =>
      let nextBid :=
        (CurrentBid (heap w bidder) + AutoIncrement (heap w bidder))%float in
      if (nextBid <=? MaxBid (heap w bidder))%float then
        match PlaceBid a bidder nextBid w with
        | (None, w) => biddingRound a rest true w
        | (Some _, w) => biddingRound a rest active w
        end
      else biddingRound a rest active w
  end.

(** The loop [for active]; [None] when the fuel runs out first. *)
Fixpoint biddingRounds (fuel : nat) (a : Auction) (bidders : list ptr)
    (w : World) : option World :=
  match fuel with
  | O => None
  | S fuel =>
      let '(active, w) := biddingRound a bidders false w in
      if active then biddingRounds fuel a bidders w else Some w
  end.

End Clock.

(** [createBidder] of the test file; [id] and [now] are what [uuid.New] and
    [time.Now] return. *)
Definition createBidder (id : UUID) (now : Time) (name : string)
    (startingBid maxBid increment : float) : Bidder :=
  mkBidder id name startingBid maxBid startingBid increment now.

(** What each message of [validateBidder] reports. *)
Definition bidderErrorCause (b : Bidder) (err : BidderError) : Prop :=
  match err with
  | InvalidStartingBid s =>
      s = StartingBid b ∧ (StartingBid b <=? 0)%float = true
  | InvalidMaxBid m s =>
      m = MaxBid b ∧ s = StartingBid b
      ∧ (MaxBid b <? StartingBid b)%float = true
  | InvalidIncrement i =>
      i = AutoIncrement b ∧ (AutoIncrement b <=? 0)%float = true
  end.

(** ** The order of binary64, by rank

    [SFcompare] orders the floats other than NaN like triples of integers
    compared from the left: the class (negative infinity, negative, zero,
    positive, positive infinity), then the exponent, then the mantissa,
    the last two negated for negative floats. *)

Definition SFkey (x : spec_float) : option (Z * Z * Z) :=
  match x with
  | S754_nan => None
  | S754_infinity true => Some (-2, 0, 0)%Z
  | S754_finite true m e => Some (-1, - e, Z.neg m)%Z
  | S754_zero _ => Some (0, 0, 0)%Z
  | S754_finite false m e => Some (1, e, Z.pos m)%Z
  | S754_infinity false => Some (2, 0, 0)%Z
  end.

Definition keyCompare (k1 k2 : Z * Z * Z) : comparison :=
  let '(a1, b1, c1) := k1 in
  let '(a2, b2, c2) := k2 in
  match (a1 ?= a2)%Z with
  | Eq => match (b1 ?= b2)%Z with Eq => (c1 ?= c2)%Z | c => c end
  | c => c
  end.

Definition keyLe (k1 k2 : Z * Z * Z) : Prop :=
  keyCompare k1 k2 = Lt ∨ k1 = k2.

(** The bounds the specification states for a bidder, relative to the record
    [b0] it started from: parameters untouched, [CurrentBid] between
    [StartingBid] and [MaxBid], and not below what it was. *)
Definition withinBounds (b0 b : Bidder) : Prop :=
  StartingBid b = StartingBid b0 ∧ MaxBid b = MaxBid b0
  ∧ AutoIncrement b = AutoIncrement b0
  ∧ (StartingBid b <=? CurrentBid b)%float = true
  ∧ (CurrentBid b <=? MaxBid b)%float = true
  ∧ (CurrentBid b0 <=? CurrentBid b)%float = true.

(** ** Bids without their times

    The sweep decides from identities, bids, increments and ceilings alone;
    the time it stamps never feeds back. [eraseTime] forgets the time,
    [visits] is the sweep's test on a record against the identity of the
    bidding one, and [raised] is the record it leaves, time apart. *)

Definition eraseTime (b : Bidder) : Bidder := withLastBidTime 0%Z b.

Definition visits (bidderID : UUID) (b : Bidder) : bool :=
  negb (ID b =? bidderID)%N
  && (CurrentBid b + AutoIncrement b <=? MaxBid b)%float.

Definition raised (bidderID : UUID) (b : Bidder) : Bidder :=
  if visits bidderID b
  then withCurrentBid (CurrentBid b + AutoIncrement b)%float b
  else b.

(** Two worlds that differ in the recorded times at most. *)
Definition bidsAgree (w1 w2 : World) : Prop :=
  ticks w1 = ticks w2 ∧ ∀ q, eraseTime (heap w1 q) = eraseTime (heap w2 q).

(** ** Bidders without their identities

    [PlaceBid] reads identities only to tell the bidding record from the
    others. Two worlds are [alike] when their records agree on everything
    but the identity and the same pairs of addresses share one. *)

Definition eraseID (b : Bidder) : Bidder :=
  mkBidder 0%N (Name b) (StartingBid b) (MaxBid b) (CurrentBid b)
           (AutoIncrement b) (LastBidTime b).

Definition alike (w1 w2 : World) : Prop :=
  ticks w1 = ticks w2
  ∧ (∀ q, eraseID (heap w1 q) = eraseID (heap w2 q))
  ∧ ∀ p q, (ID (heap w1 p) =? ID (heap w1 q))%N
           = (ID (heap w2 p) =? ID (heap w2 q))%N.

(** ** The bidders of the test's first scenario

    Sasha, John and Pat live at addresses 0, 1 and 2; [createBidder] draws
    their identifiers and reads the clock once for each. *)

Definition sasha : ptr := 0.
Definition john : ptr := 1.
Definition pat : ptr := 2.

Definition referenceHeap (ids : ptr → UUID) (clock : nat → Time) : Heap :=
  λ p,
    match p with
    | 0 => createBidder (ids 0) (clock 0) "Sasha" 50 80 3
    | 1 => createBidder (ids 1) (clock 1) "John" 60 82 2
    | _ => createBidder (ids 2) (clock 2) "Pat" 55 85 5
    end.

Definition referenceWorld (ids : ptr → UUID) (clock : nat → Time) : World :=
  mkWorld (referenceHeap ids clock) 3.

Definition referenceBidders : list ptr := [sasha; john; pat].

(** A concrete instance: identifiers 1, 2, 3, a clock that advances by one
    at every read, and the auction [NewAuction] builds with identifier 9. *)
Definition sampleIDs (p : ptr) : UUID := N.of_nat (S p).
Definition sampleClock (k : nat) : Time := Z.of_nat k.
Definition sampleWorld : World := referenceWorld sampleIDs sampleClock.
Definition sampleAuction : Auction := mkAuction 9%N referenceBidders.

(** ** Two bidders that move together

    X bids; Y and Z start level with the same step and the same ceiling. *)

Definition tieHeap : Heap :=
  λ p,
    match p with
    | 0 => mkBidder 1%N "X" 1 100 1 1 0%Z
    | 1 => mkBidder 2%N "Y" 10 20 10 5 0%Z
    | _ => mkBidder 3%N "Z" 10 20 10 5 0%Z
    end.

Definition tieWorld : World := mkWorld tieHeap 0.
Definition tieAuction : Auction := mkAuction 9%N [0; 1; 2].

(** The same auction with Z swept before Y. *)
Definition tieAuctionSwapped : Auction := mkAuction 9%N [0; 2; 1].

(** A clock too coarse to tell two reads apart. *)
Definition stillClock (k : nat) : Time := 0%Z.

(** The list with Sasha entered twice. *)
Definition sashaTwice : NewAuctionConfig := mkConfig [sasha; john; sasha].

(** Where the first table's run ends. *)
Definition sampleEnd : World :=
  default sampleWorld
    (biddingRounds sampleClock 6 sampleAuction referenceBidders sampleWorld).

(** The first table with Pat stored first. *)
Definition sampleAuctionRotated : Auction := mkAuction 9%N [pat; sasha; john].

(** ** Comparing bidders

    [w] is no worse than [o]: a higher bid, or the same bid no later. *)
Definition outbids (h : Heap) (w o : ptr) : Prop :=
  (CurrentBid (h o) <? CurrentBid (h w))%float = true
  ∨ ((CurrentBid (h o) =? CurrentBid (h w))%float = true
     ∧ (LastBidTime (h w) ≤ LastBidTime (h o))%Z).

(** ** The invariant of an auction

    What [validateAuctionData] checks, as a property of the list and of the
    records it points to. *)

Definition wellFormed (a : Auction) (h : Heap) : Prop :=
  2 ≤ length (Bidders a)
  ∧ NoDup ((λ p, ID (h p)) <$> Bidders a)
  ∧ ∀ p, p ∈ Bidders a → validateBidder (h p) = None.

(** ** The other tables of the test

    The rows of a table: the bidder at each address, given what [uuid.New]
    and [time.Now] return for it. *)
Definition scenario2 (p : ptr) (id : UUID) (now : Time) : Bidder :=
  match p with
  | 0 => createBidder id now "Riley" 700 725 2
  | 1 => createBidder id now "Morgan" 599 725 15
  | _ => createBidder id now "Charlie" 625 725 8
  end.

Definition scenario3 (p : ptr) (id : UUID) (now : Time) : Bidder :=
  match p with
  | 0 => createBidder id now "Alex" 2500 3000 500
  | 1 => createBidder id now "Jesse" 2800 3100 201
  | _ => createBidder id now "Drew" 2501 3200 247
  end.

(** A table has three rows; every further address shows the third. *)
Definition rowOf (p : ptr) : ptr :=
  match p with 0 => 0 | 1 => 1 | _ => 2 end.

Definition scenarioHeap (rows : ptr → UUID → Time → Bidder)
    (ids : ptr → UUID) (clock : nat → Time) : Heap :=
  λ p, rows p (ids (rowOf p)) (clock (rowOf p)).

Definition scenarioWorld (rows : ptr → UUID → Time → Bidder)
    (ids : ptr → UUID) (clock : nat → Time) : World :=
  mkWorld (scenarioHeap rows ids clock) 3.

(** * Properties *)

(** ** Order facts on binary64

    The comparisons of [float] are specified through [SFcompare]; swapping
    its arguments flips the answer, and NaN compares with nothing. *)

Lemma SFcompare_antisym x y :
  SFcompare y x = option_map CompOpp (SFcompare x y).
Proof.
  destruct x as [sx|sx| |sx mx ex], y as [sy|sy| |sy my ey]; simpl; try done;
    try (destruct sx; done); try (destruct sy; done);
    try (destruct sx, sy; done).
  destruct sx, sy; simpl; try done; f_equal;
    rewrite (Z.compare_antisym ex ey); destruct (ex ?= ey)%Z; simpl;
    try done; rewrite Pos.compare_cont_antisym; simpl;
    by rewrite ?CompOpp_involutive.
Qed.

Ltac float_cmp x y :=
  rewrite ?FloatAxioms.ltb_spec, ?FloatAxioms.leb_spec,
    ?FloatAxioms.eqb_spec;
  unfold SFltb, SFleb, SFeqb;
  rewrite ?(SFcompare_antisym x y);
  destruct (SFcompare x y) as [[]|]; simpl; try done.

Lemma float_ltb_asym x y : (x <? y)%float = true → (y <? x)%float = false.
Proof. float_cmp (Prim2SF x) (Prim2SF y). Qed.

Lemma float_ltb_not_leb x y : (x <? y)%float = true → (y <=? x)%float = false.
Proof. float_cmp (Prim2SF x) (Prim2SF y). Qed.

Lemma float_leb_not_ltb x y : (x <=? y)%float = true → (y <? x)%float = false.
Proof. float_cmp (Prim2SF x) (Prim2SF y). Qed.

Lemma float_ltb_not_eqb x y : (x <? y)%float = true → (x =? y)%float = false.
Proof. float_cmp (Prim2SF x) (Prim2SF y). Qed.

Lemma float_eqb_not_ltb_sym x y :
  (x =? y)%float = true → (y <? x)%float = false.
Proof. float_cmp (Prim2SF x) (Prim2SF y). Qed.

Lemma float_eqb_sym x y : (x =? y)%float = (y =? x)%float.
Proof. float_cmp (Prim2SF x) (Prim2SF y). Qed.

Lemma float_ltb_irrefl x : (x <? x)%float = false.
Proof.
  destruct (x <? x)%float eqn:E; [|done].
  by rewrite (float_ltb_asym _ _ E) in E.
Qed.

(** [SFcompare] is the comparison of the ranks. *)
Lemma SFcompare_key x y :
  SFcompare x y =
  match SFkey x, SFkey y with
  | Some k1, Some k2 => Some (keyCompare k1 k2)
  | _, _ => None
  end.
Proof.
  destruct x as [sx|sx| |sx mx ex], y as [sy|sy| |sy my ey]; simpl; try done;
    try (destruct sx; done); try (destruct sy; done);
    try (destruct sx, sy; done).
  destruct sx, sy; simpl; try done; f_equal.
  rewrite Z.compare_opp, (Z.compare_antisym ex ey).
  by destruct (ex ?= ey)%Z.
Qed.

Lemma keyCompare_Lt k1 k2 :
  keyCompare k1 k2 = Lt ↔
  let '(a1, b1, c1) := k1 in
  let '(a2, b2, c2) := k2 in
  (a1 < a2 ∨ (a1 = a2 ∧ (b1 < b2 ∨ (b1 = b2 ∧ c1 < c2))))%Z.
Proof.
  destruct k1 as [[a1 b1] c1], k2 as [[a2 b2] c2]. simpl.
  destruct (Z.compare_spec a1 a2), (Z.compare_spec b1 b2),
    (Z.compare_spec c1 c2); split; try done; try lia.
Qed.

Lemma keyCompare_Eq k1 k2 : keyCompare k1 k2 = Eq ↔ k1 = k2.
Proof.
  destruct k1 as [[a1 b1] c1], k2 as [[a2 b2] c2]. simpl.
  destruct (Z.compare_spec a1 a2), (Z.compare_spec b1 b2),
    (Z.compare_spec c1 c2); split; try done; try (intros [= ]; lia).
  congruence.
Qed.

Lemma keyLe_trans k1 k2 k3 : keyLe k1 k2 → keyLe k2 k3 → keyLe k1 k3.
Proof.
  unfold keyLe. rewrite !keyCompare_Lt.
  destruct k1 as [[a1 b1] c1], k2 as [[a2 b2] c2], k3 as [[a3 b3] c3].
  intros [H1|[= -> -> ->]] [H2|[= -> -> ->]]; try (by left); [|by right].
  left. lia.
Qed.

Lemma float_leb_key x y :
  (x <=? y)%float = true ↔
  ∃ k1 k2, SFkey (Prim2SF x) = Some k1 ∧ SFkey (Prim2SF y) = Some k2
           ∧ keyLe k1 k2.
Proof.
  rewrite FloatAxioms.leb_spec. unfold SFleb. rewrite SFcompare_key.
  destruct (SFkey (Prim2SF x)) as [k1|], (SFkey (Prim2SF y)) as [k2|];
    try (split; [done|by intros (? & ? & ? & ? & ?)]).
  split.
  - intros H. exists k1, k2. repeat split.
    destruct (keyCompare k1 k2) eqn:E; [|by left|done].
    right. by apply keyCompare_Eq.
  - intros (? & ? & [= <-] & [= <-] & [->| <-]); [done|].
    by rewrite (proj2 (keyCompare_Eq k1 k1) eq_refl).
Qed.

Lemma float_ltb_key x y :
  (x <? y)%float = true ↔
  ∃ k1 k2, SFkey (Prim2SF x) = Some k1 ∧ SFkey (Prim2SF y) = Some k2
           ∧ keyCompare k1 k2 = Lt.
Proof.
  rewrite FloatAxioms.ltb_spec. unfold SFltb. rewrite SFcompare_key.
  destruct (SFkey (Prim2SF x)) as [k1|], (SFkey (Prim2SF y)) as [k2|];
    try (split; [done|by intros (? & ? & ? & ? & ?)]).
  split.
  - intros H. exists k1, k2. repeat split. by destruct (keyCompare k1 k2).
  - by intros (? & ? & [= <-] & [= <-] & ->).
Qed.

Lemma float_leb_trans x y z :
  (x <=? y)%float = true → (y <=? z)%float = true → (x <=? z)%float = true.
Proof.
  rewrite !float_leb_key.
  intros (k1 & k2 & H1 & H2 & H12) (k2' & k3 & H2' & H3 & H23).
  rewrite H2 in H2'. injection H2' as <-.
  exists k1, k3. repeat split; try done. by eapply keyLe_trans.
Qed.

Lemma float_ltb_leb_trans x y z :
  (x <? y)%float = true → (y <=? z)%float = true → (x <? z)%float = true.
Proof.
  rewrite !float_ltb_key, float_leb_key.
  intros (k1 & k2 & H1 & H2 & H12) (k2' & k3 & H2' & H3 & H23).
  rewrite H2 in H2'. injection H2' as <-.
  exists k1, k3. repeat split; try done.
  destruct H23 as [H23| <-]; [|done].
  apply keyCompare_Lt. apply keyCompare_Lt in H12, H23.
  destruct k1 as [[a1 b1] c1], k2 as [[a2 b2] c2], k3 as [[a3 b3] c3]. lia.
Qed.

(** A number, one that equals itself, compares with itself. *)
Lemma float_leb_refl x : (x =? x)%float = true → (x <=? x)%float = true.
Proof.
  rewrite FloatAxioms.eqb_spec, FloatAxioms.leb_spec. unfold SFeqb, SFleb.
  by destruct (SFcompare _ _) as [[]|].
Qed.

Lemma float_leb_number x y :
  (x <=? y)%float = true → (x =? x)%float = true ∧ (y =? y)%float = true.
Proof.
  rewrite float_leb_key, !FloatAxioms.eqb_spec. unfold SFeqb.
  rewrite !SFcompare_key.
  intros (k1 & k2 & -> & -> & _).
  by rewrite !(proj2 (keyCompare_Eq _ _) eq_refl).
Qed.

Lemma float_ltb_number x y :
  (x <? y)%float = true → (x =? x)%float = true ∧ (y =? y)%float = true.
Proof.
  rewrite float_ltb_key, !FloatAxioms.eqb_spec. unfold SFeqb.
  rewrite !SFcompare_key.
  intros (k1 & k2 & -> & -> & _).
  by rewrite !(proj2 (keyCompare_Eq _ _) eq_refl).
Qed.

(** Two numbers are ordered one way or the other. *)
Lemma float_not_ltb x y :
  (x =? x)%float = true → (y =? y)%float = true →
  (x <? y)%float = false → (y <=? x)%float = true.
Proof.
  rewrite !FloatAxioms.eqb_spec, FloatAxioms.ltb_spec, FloatAxioms.leb_spec.
  unfold SFeqb, SFltb, SFleb.
  rewrite (SFcompare_antisym (Prim2SF x) (Prim2SF y)), !SFcompare_key.
  destruct (SFkey (Prim2SF x)) as [k1|], (SFkey (Prim2SF y)) as [k2|];
    try done.
  by destruct (keyCompare k1 k2).
Qed.

Lemma float_not_leb x y :
  (x =? x)%float = true → (y =? y)%float = true →
  (x <=? y)%float = false → (y <? x)%float = true.
Proof.
  rewrite !FloatAxioms.eqb_spec, FloatAxioms.ltb_spec, FloatAxioms.leb_spec.
  unfold SFeqb, SFltb, SFleb.
  rewrite (SFcompare_antisym (Prim2SF x) (Prim2SF y)), !SFcompare_key.
  destruct (SFkey (Prim2SF x)) as [k1|], (SFkey (Prim2SF y)) as [k2|];
    try done.
  by destruct (keyCompare k1 k2).
Qed.

Lemma float_ltb_leb x y : (x <? y)%float = true → (x <=? y)%float = true.
Proof.
  rewrite FloatAxioms.ltb_spec, FloatAxioms.leb_spec. unfold SFltb, SFleb.
  by destruct (SFcompare _ _) as [[]|].
Qed.

(** ** Rounded addition

    [x + i] is the sum of the two mantissas, aligned on the smaller
    exponent, shifted right to the exponent its number of digits asks for
    and rounded to nearest even. The shift only drops digits below the
    exponent of [x], or leaves a mantissa with more digits than [x] has, so
    for positive [x] and [i] the result is not below [x]. *)

Section Rounding.

Local Open Scope Z_scope.

Lemma digits2_bounds p :
  2 ^ (Z.pos (digits2_pos p) - 1) ≤ Z.pos p < 2 ^ Z.pos (digits2_pos p).
Proof.
  induction p as [p IH|p IH|]; simpl digits2_pos;
    rewrite ?Pos2Z.inj_succ; [| |simpl; lia].
  - replace (Z.succ (Z.pos (digits2_pos p)) - 1)
      with (Z.succ (Z.pos (digits2_pos p) - 1)) by lia.
    rewrite !Z.pow_succ_r by lia. lia.
  - replace (Z.succ (Z.pos (digits2_pos p)) - 1)
      with (Z.succ (Z.pos (digits2_pos p) - 1)) by lia.
    rewrite !Z.pow_succ_r by lia. lia.
Qed.

Lemma shr_1_m mrs : 0 ≤ shr_m mrs → shr_m (shr_1 mrs) = shr_m mrs / 2.
Proof.
  destruct mrs as [m r s]. simpl. intros Hm.
  destruct m as [|[p|p|]|p]; simpl; try done; try lia.
  - by rewrite Pos2Z.inj_xI, Z.add_comm, Z.mul_comm, Z.div_add, Z.add_0_l.
  - by rewrite Pos2Z.inj_xO, Z.mul_comm, Z.div_mul.
Qed.

Lemma iter_shr_m p mrs :
  0 ≤ shr_m mrs → shr_m (SpecFloat.iter_pos shr_1 p mrs) = shr_m mrs / 2 ^ Z.pos p.
Proof.
  revert mrs. induction p as [p IH|p IH|]; intros mrs Hm; simpl SpecFloat.iter_pos.
  - assert (0 ≤ shr_m (shr_1 mrs)) as H1.
    { rewrite shr_1_m by done. by apply Z.div_pos. }
    assert (0 ≤ shr_m (SpecFloat.iter_pos shr_1 p (shr_1 mrs))) as H2.
    { rewrite IH by done. apply Z.div_pos; [done|lia]. }
    rewrite !IH, shr_1_m by done.
    rewrite !Z.div_div by lia. f_equal.
    rewrite Pos2Z.inj_xI, <- Z.pow_add_r, <- Z.pow_succ_r by lia. f_equal. lia.
  - assert (0 ≤ shr_m (SpecFloat.iter_pos shr_1 p mrs)) as H2.
    { rewrite IH by done. apply Z.div_pos; [done|lia]. }
    rewrite !IH by done.
    rewrite !Z.div_div by lia. f_equal.
    rewrite Pos2Z.inj_xO, <- Z.pow_add_r by lia. f_equal. lia.
  - rewrite shr_1_m by done. done.
Qed.

Lemma shr_spec mrs e n :
  0 ≤ shr_m mrs →
  shr_m (shr mrs e n).1 = shr_m mrs / 2 ^ Z.max 0 n
  ∧ (shr mrs e n).2 = e + Z.max 0 n.
Proof.
  intros Hm. destruct n as [|p|p]; simpl.
  - by rewrite Z.div_1_r, Z.add_0_r.
  - rewrite iter_shr_m by done. done.
  - by rewrite Z.div_1_r, Z.add_0_r.
Qed.

Lemma round_nearest_even_bounds m l :
  m ≤ round_nearest_even m l ≤ m + 1.
Proof.
  destruct l as [|[]]; simpl; try lia. destruct (Z.even m); lia.
Qed.

Lemma fexp_mono d1 d2 : d1 ≤ d2 → fexp prec emax d1 ≤ fexp prec emax d2.
Proof. unfold fexp. lia. Qed.

Lemma fexp_emin d : -1074 ≤ fexp prec emax d.
Proof. unfold fexp, SpecFloat.emin, prec, emax. lia. Qed.

(** Above the smallest exponent, [fexp] leaves [prec] digits. *)
Lemma fexp_above d e :
  e < fexp prec emax d → -1074 ≤ e → fexp prec emax d = d - 53.
Proof. unfold fexp, SpecFloat.emin, prec, emax. lia. Qed.

(** A positive integer keeps at least one digit when shifted to its
    rounding exponent. *)
Lemma shr_fexp_pos p e :
  -1074 ≤ e →
  let r := shr_fexp prec emax (Z.pos p) e loc_Exact in
  1 ≤ shr_m r.1
  ∧ shr_m r.1
    = Z.pos p
      / 2 ^ Z.max 0 (fexp prec emax (Z.pos (digits2_pos p) + e) - e)
  ∧ r.2 = e + Z.max 0 (fexp prec emax (Z.pos (digits2_pos p) + e) - e).
Proof.
  intros He r. unfold r, shr_fexp.
  destruct (shr_spec (shr_record_of_loc (Z.pos p) loc_Exact) e
              (fexp prec emax (Zdigits2 (Z.pos p) + e) - e)) as [Hm Hexp];
    [simpl; lia|].
  simpl Zdigits2 in *. simpl shr_m in Hm at 2.
  split; [|done]. rewrite Hm.
  set (n := fexp prec emax (Z.pos (digits2_pos p) + e) - e).
  destruct (Z.max_spec 0 n) as [[Hn ->]|[Hn ->]].
  - pose proof (fexp_above (Z.pos (digits2_pos p) + e) e ltac:(lia) He) as Hf.
    apply Z.div_le_lower_bound; [lia|].
    pose proof (digits2_bounds p) as [Hp _].
    assert (2 ^ n ≤ 2 ^ (Z.pos (digits2_pos p) - 1)); [|lia].
    apply Z.pow_le_mono_r; lia.
  - rewrite Z.div_1_r. lia.
Qed.

Lemma bounded_canonical mx ex :
  bounded prec emax mx ex = true →
  fexp prec emax (Z.pos (digits2_pos mx) + ex) = ex ∧ -1074 ≤ ex.
Proof.
  unfold bounded, canonical_mantissa. intros [H _]%andb_true_iff.
  apply Z.eqb_eq in H. split; [done|]. rewrite <- H. apply fexp_emin.
Qed.

(** Rounding an integer that is at least [mx * 2^(ex - e)], counted in
    units of [2^e], gives a float that is at least [mx * 2^ex]. *)
Lemma binary_round_ge mx ex m e :
  bounded prec emax mx ex = true →
  -1074 ≤ e ≤ ex →
  Z.pos mx * 2 ^ (ex - e) ≤ Z.pos m →
  SFleb (S754_finite false mx ex) (binary_round prec emax false m e) = true.
Proof.
  intros Hb He Hm. destruct (bounded_canonical mx ex Hb) as [Hcan Hex].
  set (F := fexp prec emax (Z.pos (digits2_pos m) + e)).
  (* the sum has at least the digits of [mx], shifted *)
  assert (Z.pos (digits2_pos mx) + (ex - e) ≤ Z.pos (digits2_pos m)) as Hd.
  { pose proof (digits2_bounds mx) as [Hx _].
    pose proof (digits2_bounds m) as [_ Hs].
    assert (2 ^ (Z.pos (digits2_pos mx) - 1 + (ex - e))
            < 2 ^ Z.pos (digits2_pos m)) as Hlt.
    { rewrite Z.pow_add_r by lia. nia. }
    apply Z.pow_lt_mono_r_iff in Hlt; lia. }
  assert (ex ≤ F) as HF.
  { rewrite <- Hcan. apply fexp_mono. lia. }
  unfold binary_round. fold F.
  assert (shl_align m e F = (m, e)) as ->.
  { unfold shl_align. destruct (F - e) eqn:E; try done. lia. }
  unfold binary_round_aux.
  destruct (shr_fexp_pos m e ltac:(lia)) as (Hm1 & Hm1' & He1).
  fold F in Hm1', He1.
  destruct (shr_fexp prec emax (Z.pos m) e loc_Exact) as [mrs' e'].
  simpl in Hm1, Hm1', He1.
  rewrite Z.max_r in Hm1', He1 by lia.
  assert (e' = F) as -> by lia. clear He1.
  pose proof (round_nearest_even_bounds (shr_m mrs') (loc_of_shr_record mrs'))
    as Hr.
  set (mr := round_nearest_even (shr_m mrs') (loc_of_shr_record mrs')) in *.
  destruct mr as [|pr|pr] eqn:Emr; try lia.
  destruct (shr_fexp_pos pr F ltac:(lia)) as (Hm2 & Hm2' & He2).
  destruct (shr_fexp prec emax (Z.pos pr) F loc_Exact) as [mrs'' e''].
  simpl in Hm2, Hm2', He2.
  destruct (shr_m mrs'') as [|p2|p2] eqn:Em2; try lia.
  destruct (e'' <=? emax - prec); [|done].
  unfold SFleb, SFcompare.
  destruct (Z.compare_spec ex e'') as [Heq|Hlt|Hgt]; [|done|lia].
  (* equal exponents: nothing was shifted away twice, and [F = ex] *)
  assert (F = ex) as HFex by lia.
  rewrite Z.max_l in Hm2' by lia. rewrite Z.div_1_r in Hm2'.
  assert (Z.pos mx ≤ shr_m mrs') as Hmx.
  { rewrite Hm1', HFex. apply Z.div_le_lower_bound; lia. }
  rewrite Pos.compare_cont_spec. simpl.
  destruct (Pos.compare_spec mx p2); try done. lia.
Qed.

Lemma iter_xO p d : Z.pos (Pos.iter xO p d) = Z.pos p * 2 ^ Z.pos d.
Proof.
  induction d as [|d IH] using Pos.peano_ind.
  - simpl. lia.
  - rewrite Pos.iter_succ, Pos2Z.inj_xO, IH, Pos2Z.inj_succ.
    rewrite Z.pow_succ_r by lia. lia.
Qed.

Lemma shl_align_fst mx ex ez :
  ez ≤ ex → Z.pos (shl_align mx ex ez).1 = Z.pos mx * 2 ^ (ex - ez).
Proof.
  intros H. unfold shl_align. destruct (ez - ex) as [|d|d] eqn:E; simpl.
  - replace (ex - ez) with 0 by lia. lia.
  - lia.
  - rewrite iter_xO. f_equal. f_equal. lia.
Qed.

(** Adding a positive float to a positive float does not go below it. *)
Lemma SFadd_pos_ge x i :
  SpecFloat.valid_binary prec emax x = true →
  SpecFloat.valid_binary prec emax i = true →
  SFltb (S754_zero false) x = true → SFltb (S754_zero false) i = true →
  SFleb x (SFadd prec emax x i) = true.
Proof.
  intros Hvx Hvi Hx Hi.
  destruct x as [sx|[|]| |[|] mx ex]; try done;
    destruct i as [si|[|]| |[|] my ey]; try done.
  simpl in Hvx, Hvi. unfold SFadd.
  destruct (bounded_canonical mx ex Hvx) as [_ Hex].
  destruct (bounded_canonical my ey Hvi) as [_ Hey].
  pose proof (shl_align_fst mx ex (Z.min ex ey) ltac:(lia)) as Hax.
  pose proof (shl_align_fst my ey (Z.min ex ey) ltac:(lia)) as Hay.
  simpl cond_Zopp.
  change (Z.pos (shl_align mx ex (Z.min ex ey)).1
          + Z.pos (shl_align my ey (Z.min ex ey)).1)
    with (Z.pos ((shl_align mx ex (Z.min ex ey)).1
                 + (shl_align my ey (Z.min ex ey)).1)).
  unfold binary_normalize. apply binary_round_ge; [done|lia|].
  rewrite Pos2Z.inj_add. lia.
Qed.

Lemma float_add_ge x i :
  (0 <? x)%float = true → (0 <? i)%float = true →
  (x <=? x + i)%float = true.
Proof.
  rewrite !FloatAxioms.ltb_spec, FloatAxioms.leb_spec, FloatAxioms.add_spec.
  change (Prim2SF 0) with (S754_zero false).
  apply SFadd_pos_ge; apply FloatAxioms.Prim2SF_valid.
Qed.

End Rounding.

(** ** The auto-increment sweep *)

Section Sweep.

Variable clock : nat → Time.

Lemma heap_setCurrentBid p v w q :
  heap (setCurrentBid p v w) q
  = if decide (p = q) then withCurrentBid v (heap w p) else heap w q.
Proof. done. Qed.

Lemma heap_setLastBidTime p t w q :
  heap (setLastBidTime p t w) q
  = if decide (p = q) then withLastBidTime t (heap w p) else heap w q.
Proof. done. Qed.

(** What one iteration leaves in the record of the bidder it visits. *)
Lemma autoIncrement_visited bidder w o :
  let candidate :=
    (CurrentBid (heap w o) + AutoIncrement (heap w o))%float in
  let w' := autoIncrement clock bidder w o in
  if negb (ID (heap w o) =? ID (heap w bidder))%N
     && (candidate <=? MaxBid (heap w o))%float
  then heap w' o = withLastBidTime (clock (ticks w))
                     (withCurrentBid candidate (heap w o))
       ∧ ticks w' = S (ticks w)
  else w' = w.
Proof.
  unfold autoIncrement; simpl.
  destruct (negb _); simpl; [|done].
  destruct (_ <=? _)%float; simpl; [|done].
  unfold insert, fn_insert. by rewrite !decide_True.
Qed.

(** An iteration writes through the visited pointer only. *)
Lemma autoIncrement_elsewhere bidder w o q :
  q ≠ o → heap (autoIncrement clock bidder w o) q = heap w q.
Proof.
  intros Hq. unfold autoIncrement.
  destruct (negb _); [|done]. destruct (_ <=? _)%float; [|done].
  simpl. unfold insert, fn_insert. by rewrite !decide_False.
Qed.

(** Identities and bidding parameters are never written. *)
Lemma autoIncrement_static bidder w o q :
  let b := heap w q in
  let b' := heap (autoIncrement clock bidder w o) q in
  ID b' = ID b ∧ Name b' = Name b ∧ StartingBid b' = StartingBid b
  ∧ MaxBid b' = MaxBid b ∧ AutoIncrement b' = AutoIncrement b.
Proof.
  simpl. destruct (decide (q = o)) as [->|Hq].
  - pose proof (autoIncrement_visited bidder w o) as H. simpl in H.
    destruct (_ && _); [destruct H as [-> _]|rewrite H]; done.
  - by rewrite autoIncrement_elsewhere.
Qed.

Lemma autoIncrement_ticks bidder w o :
  ticks w ≤ ticks (autoIncrement clock bidder w o).
Proof.
  pose proof (autoIncrement_visited bidder w o) as H. simpl in H.
  destruct (_ && _); [destruct H as [_ ->]; lia|by rewrite H].
Qed.

Lemma sweep_static bidder l w q :
  let b := heap w q in
  let b' := heap (fold_left (autoIncrement clock bidder) l w) q in
  ID b' = ID b ∧ Name b' = Name b ∧ StartingBid b' = StartingBid b
  ∧ MaxBid b' = MaxBid b ∧ AutoIncrement b' = AutoIncrement b.
Proof.
  simpl. revert w. induction l as [|o l IH]; intros w; simpl; [done|].
  destruct (IH (autoIncrement clock bidder w o)) as (-> & -> & -> & -> & ->).
  apply autoIncrement_static.
Qed.

Lemma sweep_ticks bidder l w :
  ticks w ≤ ticks (fold_left (autoIncrement clock bidder) l w).
Proof.
  revert w. induction l as [|o l IH]; intros w; simpl; [done|].
  etrans; [apply (autoIncrement_ticks bidder w o)|apply IH].
Qed.

(** A record the sweep does not visit is left as it was. *)
Lemma sweep_unvisited bidder l w q :
  q ∉ l → heap (fold_left (autoIncrement clock bidder) l w) q = heap w q.
Proof.
  revert w. induction l as [|o l IH]; intros w Hq; simpl; [done|].
  apply not_elem_of_cons in Hq as [Hqo Hql].
  rewrite IH by done. by apply autoIncrement_elsewhere.
Qed.

(** A record that carries the identity of the bidding one is skipped. *)
Lemma sweep_same_ID bidder l w q :
  ID (heap w q) = ID (heap w bidder) →
  heap (fold_left (autoIncrement clock bidder) l w) q = heap w q.
Proof.
  revert w. induction l as [|o l IH]; intros w Hid; simpl; [done|].
  assert (heap (autoIncrement clock bidder w o) q = heap w q) as Hq.
  { destruct (decide (q = o)) as [->|Hqo]; [|by apply autoIncrement_elsewhere].
    pose proof (autoIncrement_visited bidder w o) as H. simpl in H.
    rewrite Hid, N.eqb_refl in H. simpl in H. by rewrite H. }
  rewrite IH; [done|]. rewrite Hq.
  by destruct (autoIncrement_static bidder w o bidder) as (-> & _).
Qed.

(** The sweep over a list without repetition visits [q] once: either it
    raises [CurrentBid] by [AutoIncrement] and stamps the time of one clock
    read of the sweep, or it leaves the record as it was. *)
Lemma sweep_visited bidder l w q :
  NoDup l → q ∈ l →
  let candidate :=
    (CurrentBid (heap w q) + AutoIncrement (heap w q))%float in
  let w' := fold_left (autoIncrement clock bidder) l w in
  if negb (ID (heap w q) =? ID (heap w bidder))%N
     && (candidate <=? MaxBid (heap w q))%float
  then CurrentBid (heap w' q) = candidate
       ∧ ∃ k, ticks w ≤ k < ticks w' ∧ LastBidTime (heap w' q) = clock k
  else heap w' q = heap w q.
Proof.
  simpl. revert w. induction l as [|o l IH]; intros w Hnd Hq.
  { by apply elem_of_nil in Hq. }
  apply NoDup_cons in Hnd as [Hol Hnd]. simpl.
  destruct (decide (q = o)) as [->|Hqo].
  - rewrite sweep_unvisited by done.
    pose proof (autoIncrement_visited bidder w o) as H. simpl in H.
    destruct (_ && _); [|by rewrite H].
    destruct H as [-> Ht]. split; [done|]. exists (ticks w). split; [|done].
    pose proof (sweep_ticks bidder l (autoIncrement clock bidder w o)). lia.
  - apply elem_of_cons in Hq as [?|Hq]; [done|].
    specialize (IH (autoIncrement clock bidder w o) Hnd Hq).
    rewrite (autoIncrement_elsewhere bidder w o q Hqo) in IH.
    destruct (autoIncrement_static bidder w o bidder) as (Hid & _).
    rewrite Hid in IH.
    destruct (_ && _); [|done].
    destruct IH as [-> (k & Hk & ->)]. split; [done|]. exists k. split; [|done].
    pose proof (autoIncrement_ticks bidder w o). lia.
Qed.

End Sweep.

(** ** Bid placement *)

Section BidPlacement.

Variable clock : nat → Time.

(** The three checks of [PlaceBid], in the order of the source. *)
Lemma PlaceBid_cases a bidder bidAmount w :
  let b := heap w bidder in
  PlaceBid clock a bidder bidAmount w =
    if (bidAmount <? StartingBid b)%float then
      (Some (BidBelowStartingBid bidAmount (StartingBid b)), w)
    else if (MaxBid b <? bidAmount)%float then
      (Some (BidAboveMaxBid bidAmount (MaxBid b)), w)
    else if (bidAmount <=? CurrentBid b)%float then
      (Some (BidNotHigherThanCurrent bidAmount (CurrentBid b)), w)
    else
      (None, fold_left (autoIncrement clock bidder) (Bidders a)
               (bidRecorded clock bidder bidAmount w)).
Proof. done. Qed.

Lemma PlaceBid_accepted a bidder bidAmount w :
  (PlaceBid clock a bidder bidAmount w).1 = None →
  (PlaceBid clock a bidder bidAmount w).2
  = fold_left (autoIncrement clock bidder) (Bidders a)
      (bidRecorded clock bidder bidAmount w).
Proof.
  rewrite PlaceBid_cases. simpl.
  by repeat (case_match; simpl; try done).
Qed.

Lemma bidRecorded_bidder bidder bidAmount w :
  heap (bidRecorded clock bidder bidAmount w) bidder
  = withLastBidTime (clock (ticks w))
      (withCurrentBid bidAmount (heap w bidder)).
Proof.
  unfold bidRecorded. simpl. unfold insert, fn_insert.
  by rewrite !decide_True.
Qed.

Lemma bidRecorded_elsewhere bidder bidAmount w q :
  q ≠ bidder → heap (bidRecorded clock bidder bidAmount w) q = heap w q.
Proof.
  intros Hq. unfold bidRecorded. simpl. unfold insert, fn_insert.
  by rewrite !decide_False.
Qed.

Lemma bidRecorded_ID bidder bidAmount w q :
  ID (heap (bidRecorded clock bidder bidAmount w) q) = ID (heap w q).
Proof.
  destruct (decide (q = bidder)) as [->|Hq].
  - by rewrite bidRecorded_bidder.
  - by rewrite bidRecorded_elsewhere.
Qed.

Lemma bidRecorded_ticks bidder bidAmount w :
  ticks (bidRecorded clock bidder bidAmount w) = S (ticks w).
Proof. done. Qed.

(** Pointers whose records carry distinct identities are distinct, and
    conversely within a list whose identities do not repeat. *)
Lemma distinct_IDs (h : Heap) (l : list ptr) p q :
  NoDup ((λ x, ID (h x)) <$> l) → p ∈ l → q ∈ l → p ≠ q →
  ID (h p) ≠ ID (h q).
Proof.
  induction l as [|x l IH]; intros Hnd Hp Hq Hpq.
  { by apply elem_of_nil in Hp. }
  rewrite fmap_cons in Hnd. apply NoDup_cons in Hnd as [Hx Hnd].
  apply elem_of_cons in Hp as [->|Hp], Hq as [->|Hq]; try done.
  - intros E. apply Hx. rewrite E.
    by apply (list_elem_of_fmap_2 (λ x, ID (h x)) l q).
  - intros E. apply Hx. rewrite <- E.
    by apply (list_elem_of_fmap_2 (λ x, ID (h x)) l p).
  - by apply IH.
Qed.

(** C3. [PlaceBid] runs its three checks in the order starting bid, maximum
    bid, current bid; the first one that fails decides the error, and the
    world comes back as it was given. It returns an error exactly when one
    of the checks fails, and whenever it returns an error nothing has been
    written. *)
Theorem PlaceBid_validation a bidder bidAmount w :
  ((bidAmount <? StartingBid (heap w bidder))%float = true →
     PlaceBid clock a bidder bidAmount w
     = (Some (BidBelowStartingBid bidAmount (StartingBid (heap w bidder))), w))
  ∧ ((bidAmount <? StartingBid (heap w bidder))%float = false →
     (MaxBid (heap w bidder) <? bidAmount)%float = true →
     PlaceBid clock a bidder bidAmount w
     = (Some (BidAboveMaxBid bidAmount (MaxBid (heap w bidder))), w))
  ∧ ((bidAmount <? StartingBid (heap w bidder))%float = false →
     (MaxBid (heap w bidder) <? bidAmount)%float = false →
     (bidAmount <=? CurrentBid (heap w bidder))%float = true →
     PlaceBid clock a bidder bidAmount w
     = (Some (BidNotHigherThanCurrent bidAmount
                (CurrentBid (heap w bidder))), w))
  ∧ (is_Some (PlaceBid clock a bidder bidAmount w).1 ↔
     (bidAmount <? StartingBid (heap w bidder))%float = true
     ∨ (MaxBid (heap w bidder) <? bidAmount)%float = true
     ∨ (bidAmount <=? CurrentBid (heap w bidder))%float = true)
  ∧ (is_Some (PlaceBid clock a bidder bidAmount w).1 →
     (PlaceBid clock a bidder bidAmount w).2 = w)
  ∧ ((PlaceBid clock a bidder bidAmount w).1 = None →
     ticks (PlaceBid clock a bidder bidAmount w).2 ≠ ticks w).
Proof.
  rewrite PlaceBid_cases. simpl.
  destruct (bidAmount <? _)%float, (_ <? bidAmount)%float,
    (bidAmount <=? _)%float; simpl;
    repeat split; try done; eauto; try (intros [? ?]; done);
    try (intros [?|[?|?]]; done).
  all: intros _;
    pose proof (sweep_ticks clock bidder (Bidders a)
                  (bidRecorded clock bidder bidAmount w)) as H;
    rewrite bidRecorded_ticks in H; lia.
Qed.

(** C1. In an auction whose bidders carry pairwise distinct identities, an
    accepted [PlaceBid] of [X] by the bidder [A] of the auction leaves [X]
    in [A]'s [CurrentBid]; every other bidder [o] of the auction whose
    candidate [CurrentBid + AutoIncrement] passes [<= MaxBid] (equality
    included) holds exactly that candidate afterwards, and every other one,
    whose candidate is above [MaxBid], keeps its [CurrentBid]. *)
Theorem PlaceBid_effect a A X w :
  NoDup ((λ p, ID (heap w p)) <$> Bidders a) →
  A ∈ Bidders a →
  (PlaceBid clock a A X w).1 = None →
  CurrentBid (heap (PlaceBid clock a A X w).2 A) = X
  ∧ ∀ o, o ∈ Bidders a → o ≠ A →
      ((CurrentBid (heap w o) + AutoIncrement (heap w o)
        <=? MaxBid (heap w o))%float = true →
       CurrentBid (heap (PlaceBid clock a A X w).2 o)
       = (CurrentBid (heap w o) + AutoIncrement (heap w o))%float)
      ∧ ((CurrentBid (heap w o) + AutoIncrement (heap w o)
          <=? MaxBid (heap w o))%float = false →
         CurrentBid (heap (PlaceBid clock a A X w).2 o)
         = CurrentBid (heap w o)).
Proof.
  intros Hids HA Hok. rewrite (PlaceBid_accepted _ _ _ _ Hok). split.
  - rewrite sweep_same_ID by done. by rewrite bidRecorded_bidder.
  - intros o Ho HoA.
    pose proof (sweep_visited clock A (Bidders a)
                  (bidRecorded clock A X w) o
                  (NoDup_fmap_1 _ _ Hids) Ho) as H.
    cbv zeta in H. rewrite !bidRecorded_ID in H.
    rewrite (bidRecorded_elsewhere A X w o HoA) in H.
    pose proof (distinct_IDs (heap w) (Bidders a) o A Hids Ho HA HoA) as Hne.
    apply N.eqb_neq in Hne. rewrite Hne in H. cbn [negb andb] in H.
    destruct (_ <=? _)%float; split; intros ?; try done.
    + by destruct H as [-> _].
    + by rewrite H.
Qed.

(** C9. [PlaceBid] never looks its [bidder] argument up in [a.Bidders]. For
    a record outside the list whose own bounds admit the amount, the call
    succeeds, writes the amount and the time of the first clock read into
    that record, and sweeps every bidder of the auction whose identity
    differs from the argument's: the candidate is stored, with the time of a
    later clock read, when it passes [<= MaxBid], and the bidder is left as
    it was otherwise. *)
Theorem PlaceBid_no_membership_check a bidder bidAmount w :
  bidder ∉ Bidders a →
  NoDup (Bidders a) →
  (bidAmount <? StartingBid (heap w bidder))%float = false →
  (MaxBid (heap w bidder) <? bidAmount)%float = false →
  (bidAmount <=? CurrentBid (heap w bidder))%float = false →
  (PlaceBid clock a bidder bidAmount w).1 = None
  ∧ CurrentBid (heap (PlaceBid clock a bidder bidAmount w).2 bidder)
    = bidAmount
  ∧ LastBidTime (heap (PlaceBid clock a bidder bidAmount w).2 bidder)
    = clock (ticks w)
  ∧ ∀ o, o ∈ Bidders a → ID (heap w o) ≠ ID (heap w bidder) →
      if (CurrentBid (heap w o) + AutoIncrement (heap w o)
          <=? MaxBid (heap w o))%float
      then CurrentBid (heap (PlaceBid clock a bidder bidAmount w).2 o)
           = (CurrentBid (heap w o) + AutoIncrement (heap w o))%float
           ∧ ∃ k, ticks w < k
               ∧ LastBidTime (heap (PlaceBid clock a bidder bidAmount w).2 o)
                 = clock k
      else heap (PlaceBid clock a bidder bidAmount w).2 o = heap w o.
Proof.
  intros Hout Hnd H1 H2 H3.
  rewrite PlaceBid_cases. cbv zeta. rewrite H1, H2, H3. cbn [fst snd].
  split; [done|].
  rewrite (sweep_unvisited clock bidder (Bidders a) _ bidder Hout).
  rewrite bidRecorded_bidder. do 2 (split; [done|]).
  intros o Ho Hne.
  pose proof (sweep_visited clock bidder (Bidders a)
                (bidRecorded clock bidder bidAmount w) o Hnd Ho) as H.
  cbv zeta in H. rewrite !bidRecorded_ID in H.
  assert (o ≠ bidder) as Hob by (by intros ->).
  rewrite (bidRecorded_elsewhere bidder bidAmount w o Hob) in H.
  apply N.eqb_neq in Hne. rewrite Hne in H. cbn [negb andb] in H.
  destruct (_ + _ <=? _)%float; [|done].
  destruct H as [-> (k & Hk & ->)]. split; [done|]. exists k. split; [|done].
  rewrite bidRecorded_ticks in Hk. lia.
Qed.

End BidPlacement.

Lemma PlaceBid_effect_witness :
  CurrentBid (heap (PlaceBid sampleClock sampleAuction sasha 53
                      sampleWorld).2 sasha) = 53%float
  ∧ CurrentBid (heap (PlaceBid sampleClock sampleAuction sasha 53
                        sampleWorld).2 john) = 62%float
  ∧ CurrentBid (heap (PlaceBid sampleClock sampleAuction sasha 53
                        sampleWorld).2 pat) = 60%float.
Proof.
  destruct (PlaceBid_effect sampleClock sampleAuction sasha 53 sampleWorld)
    as [HA Ho].
  - apply (bool_decide_unpack _). by vm_compute.
  - apply list_elem_of_here.
  - reflexivity.
  - split; [exact HA|]. split.
    + apply (Ho john); [|done|reflexivity].
      apply list_elem_of_further, list_elem_of_here.
    + apply (Ho pat); [|done|reflexivity].
      do 2 apply list_elem_of_further. apply list_elem_of_here.
Defined.

Lemma PlaceBid_no_membership_check_witness :
  (PlaceBid sampleClock (mkAuction 9%N [sasha; john]) pat 60 sampleWorld).1
  = None
  ∧ CurrentBid (heap (PlaceBid sampleClock (mkAuction 9%N [sasha; john]) pat
                        60 sampleWorld).2 pat) = 60%float.
Proof.
  destruct (PlaceBid_no_membership_check sampleClock
              (mkAuction 9%N [sasha; john]) pat 60 sampleWorld)
    as (Hok & Hbid & _).
  - apply (bool_decide_unpack _). by vm_compute.
  - apply (bool_decide_unpack _). by vm_compute.
  - reflexivity.
  - reflexivity.
  - reflexivity.
  - by split.
Defined.

(** ** Winner determination *)

(** [isWinner], read as the three reasons of its comment. *)
Lemma isWinner_iff h w b :
  isWinner h w b = true ↔
  w = None
  ∨ ∃ cw, w = Some cw
      ∧ ((CurrentBid (h cw) <? CurrentBid (h b))%float = true
         ∨ ((CurrentBid (h b) =? CurrentBid (h cw))%float = true
            ∧ (LastBidTime (h b) < LastBidTime (h cw))%Z)).
Proof.
  destruct w as [cw|]; simpl.
  - rewrite orb_true_iff, andb_true_iff, Z.ltb_lt. split.
    + intros H. right. by exists cw.
    + by intros [?|(? & [= <-] & H)].
  - split; [by left|done].
Qed.

(** The scan keeps its best or takes one of the bidders it meets. *)
Lemma scan_result h l w :
  fold_left (scanBidder h) l w = w
  ∨ ∃ o, o ∈ l ∧ fold_left (scanBidder h) l w = Some o.
Proof.
  revert w. induction l as [|x l IH]; intros w; simpl; [by left|].
  destruct (IH (scanBidder h w x)) as [E|(o & Ho & E)].
  - rewrite E. unfold scanBidder. destruct (isWinner h w x); [|by left].
    right. exists x. split; [apply list_elem_of_here|done].
  - right. exists o. split; [by apply list_elem_of_further|done].
Qed.

(** A best that no later bidder replaces is the result. *)
Lemma scan_keeps h l b :
  (∀ o, o ∈ l → isWinner h (Some b) o = false) →
  fold_left (scanBidder h) l (Some b) = Some b.
Proof.
  induction l as [|x l IH]; intros H; simpl; [done|].
  unfold scanBidder at 2. rewrite H by apply list_elem_of_here.
  apply IH. intros o Ho. apply H. by apply list_elem_of_further.
Qed.

(** The bidder that replaces every earlier one and is replaced by no later
    one is the winner. *)
Lemma scan_winner h l1 b l2 :
  (∀ o, o ∈ l1 → isWinner h (Some o) b = true) →
  (∀ o, o ∈ l2 → isWinner h (Some b) o = false) →
  fold_left (scanBidder h) (l1 ++ b :: l2) None = Some b.
Proof.
  intros H1 H2. rewrite fold_left_app. cbn [fold_left].
  assert (scanBidder h (fold_left (scanBidder h) l1 None) b = Some b) as ->.
  { destruct (scan_result h l1 None) as [->|(o & Ho & ->)]; [done|].
    unfold scanBidder. by rewrite H1. }
  by apply scan_keeps.
Qed.

(** A bidder with a lower bid, or with an equal bid and a later time, is
    replaced by [b]. *)
Lemma isWinner_over h o b :
  (CurrentBid (h o) <? CurrentBid (h b))%float = true
  ∨ ((CurrentBid (h o) =? CurrentBid (h b))%float = true
     ∧ (LastBidTime (h b) < LastBidTime (h o))%Z) →
  isWinner h (Some o) b = true.
Proof.
  intros [H|[H Ht]]; simpl; [by rewrite H|].
  rewrite float_eqb_sym, H. apply Z.ltb_lt in Ht. rewrite Ht.
  apply orb_true_r.
Qed.

(** A bidder with a lower bid, or with an equal bid and no earlier time,
    does not replace [b]. *)
Lemma isWinner_under h o b :
  (CurrentBid (h o) <? CurrentBid (h b))%float = true
  ∨ ((CurrentBid (h o) =? CurrentBid (h b))%float = true
     ∧ (LastBidTime (h b) ≤ LastBidTime (h o))%Z) →
  isWinner h (Some b) o = false.
Proof.
  intros [H|[H Ht]]; simpl.
  - by rewrite (float_ltb_asym _ _ H), (float_ltb_not_eqb _ _ H).
  - rewrite (float_eqb_not_ltb_sym _ _ H). simpl.
    apply Z.ltb_ge in Ht. rewrite Ht. apply andb_false_r.
Qed.

Lemma isWinner_self h b : isWinner h (Some b) b = false.
Proof. simpl. by rewrite float_ltb_irrefl, Z.ltb_irrefl, andb_false_r. Qed.

(** The bidder that every other one bids below, or ties with on the bid at
    a strictly later time, is the result of the scan. *)
Lemma DetermineWinner_best a h b :
  b ∈ Bidders a →
  (∀ o, o ∈ Bidders a → o ≠ b →
        (CurrentBid (h o) <? CurrentBid (h b))%float = true
        ∨ ((CurrentBid (h o) =? CurrentBid (h b))%float = true
           ∧ (LastBidTime (h b) < LastBidTime (h o))%Z)) →
  DetermineWinner a h = Some b.
Proof.
  intros Hb H. unfold DetermineWinner.
  destruct (list_elem_of_split_l _ _ Hb) as (l1 & l2 & E & Hl1).
  rewrite E in H |- *. apply scan_winner.
  - intros o Ho. apply isWinner_over, H.
    + apply elem_of_app. by left.
    + by intros ->.
  - intros o Ho. destruct (decide (o = b)) as [->|Hob].
    { apply isWinner_self. }
    apply isWinner_under.
    destruct (H o) as [?|[? ?]]; [|done|by left|right; split; [done|lia]].
    apply elem_of_app. right. by apply list_elem_of_further.
Qed.

(** C2. [DetermineWinner] scans the bidders in stored order and keeps a
    current best: nothing for the empty list, and after one more bidder [b]
    the best is [b] or the previous one, [b] exactly when the previous best
    is unset, or bids less, or bids the same with a later time. Hence the
    bidder whose bid is higher than every other one's is returned, and so is
    the bidder that every other one either bids below or ties with on the
    bid while being strictly later. *)
Theorem DetermineWinner_rule h :
  (∀ id, DetermineWinner (mkAuction id []) h = None)
  ∧ (∀ id l b,
       DetermineWinner (mkAuction id (l ++ [b])) h
       = if isWinner h (DetermineWinner (mkAuction id l) h) b
         then Some b else DetermineWinner (mkAuction id l) h)
  ∧ (∀ w b,
       isWinner h w b = true ↔
       w = None
       ∨ ∃ cw, w = Some cw
           ∧ ((CurrentBid (h cw) <? CurrentBid (h b))%float = true
              ∨ ((CurrentBid (h b) =? CurrentBid (h cw))%float = true
                 ∧ (LastBidTime (h b) < LastBidTime (h cw))%Z)))
  ∧ (∀ a b,
       b ∈ Bidders a →
       (∀ o, o ∈ Bidders a → o ≠ b →
             (CurrentBid (h o) <? CurrentBid (h b))%float = true) →
       DetermineWinner a h = Some b)
  ∧ (∀ a b,
       b ∈ Bidders a →
       (∀ o, o ∈ Bidders a → o ≠ b →
             (CurrentBid (h o) <? CurrentBid (h b))%float = true
             ∨ ((CurrentBid (h o) =? CurrentBid (h b))%float = true
                ∧ (LastBidTime (h b) < LastBidTime (h o))%Z)) →
       DetermineWinner a h = Some b).
Proof.
  split; [done|]. split; [|split; [|split]].
  - intros id l b. unfold DetermineWinner. simpl.
    by rewrite fold_left_app.
  - by apply isWinner_iff.
  - intros a b Hb H. apply DetermineWinner_best; [done|].
    intros o Ho Hob. left. by apply H.
  - intros a b. apply DetermineWinner_best.
Qed.

(** C10. Let [b] stand in the stored order after bidders it beats (a lower
    bid, or the same bid at a strictly later time) and before bidders that
    either bid less or tie with it on the bid at the same or a later time.
    Then [b] is returned: among bidders tied on the highest bid and on the
    time, the earliest in stored order wins, since a later one would need a
    strictly earlier time to replace it. *)
Theorem DetermineWinner_first_of_tied a h l1 b l2 :
  Bidders a = l1 ++ b :: l2 →
  (∀ o, o ∈ l1 →
        (CurrentBid (h o) <? CurrentBid (h b))%float = true
        ∨ ((CurrentBid (h o) =? CurrentBid (h b))%float = true
           ∧ (LastBidTime (h b) < LastBidTime (h o))%Z)) →
  (∀ o, o ∈ l2 →
        (CurrentBid (h o) <? CurrentBid (h b))%float = true
        ∨ ((CurrentBid (h o) =? CurrentBid (h b))%float = true
           ∧ (LastBidTime (h b) ≤ LastBidTime (h o))%Z)) →
  DetermineWinner a h = Some b
  ∧ ∀ o, o ∈ l2 →
      (CurrentBid (h o) =? CurrentBid (h b))%float = true →
      LastBidTime (h o) = LastBidTime (h b) →
      isWinner h (Some b) o = false.
Proof.
  intros E H1 H2. split.
  - unfold DetermineWinner. rewrite E. apply scan_winner.
    + intros o Ho. by apply isWinner_over, H1.
    + intros o Ho. by apply isWinner_under, H2.
  - intros o _ Hbid Ht. apply isWinner_under. right. split; [done|lia].
Qed.

Lemma DetermineWinner_first_of_tied_witness :
  DetermineWinner tieAuction
    (heap (PlaceBid stillClock tieAuction 0 2 tieWorld).2) = Some 1.
Proof.
  refine (proj1 (DetermineWinner_first_of_tied tieAuction
                   (heap (PlaceBid stillClock tieAuction 0 2 tieWorld).2)
                   [0] 1 [2] eq_refl _ _)).
  - intros o Ho. apply list_elem_of_singleton in Ho as ->. by left.
  - intros o Ho. apply list_elem_of_singleton in Ho as ->. right.
    by split.
Defined.

(** ** Construction *)

Lemma validateBidder_None b :
  validateBidder b = None ↔
  (StartingBid b <=? 0)%float = false
  ∧ (MaxBid b <? StartingBid b)%float = false
  ∧ (AutoIncrement b <=? 0)%float = false.
Proof.
  unfold validateBidder.
  destruct (StartingBid b <=? 0)%float, (MaxBid b <? StartingBid b)%float,
    (AutoIncrement b <=? 0)%float; split; try done; by intros (? & ? & ?).
Qed.

Lemma validateBidder_Some b err :
  validateBidder b = Some err → bidderErrorCause b err.
Proof.
  unfold validateBidder.
  destruct (StartingBid b <=? 0)%float eqn:E1.
  { intros [= <-]. by split. }
  destruct (MaxBid b <? StartingBid b)%float eqn:E2.
  { intros [= <-]. by repeat split. }
  destruct (AutoIncrement b <=? 0)%float eqn:E3; [|done].
  intros [= <-]. by split.
Qed.

(** Positive starting bid, maximum not below it, positive increment: the
    three checks pass. *)
Lemma validateBidder_valid b :
  (0 <? StartingBid b)%float = true →
  (StartingBid b <=? MaxBid b)%float = true →
  (0 <? AutoIncrement b)%float = true →
  validateBidder b = None.
Proof.
  intros H1 H2 H3. apply validateBidder_None.
  by rewrite (float_ltb_not_leb _ _ H1), (float_leb_not_ltb _ _ H2),
    (float_ltb_not_leb _ _ H3).
Qed.

(** The loop accepts exactly the lists of valid bidders whose identities
    are new and do not repeat. *)
Lemma validateBidders_None h seenIDs l :
  validateBidders h seenIDs l = None ↔
  NoDup ((λ p, ID (h p)) <$> l)
  ∧ (∀ p, p ∈ l → seenIDs !! ID (h p) = None)
  ∧ (∀ p, p ∈ l → validateBidder (h p) = None).
Proof.
  revert seenIDs. induction l as [|x l IH]; intros seenIDs; simpl.
  { split; [intros _|done]. split; [apply NoDup_nil_2|].
    split; intros p Hp; by apply elem_of_nil in Hp. }
  rewrite NoDup_cons.
  destruct (seenIDs !! ID (h x)) eqn:Eseen.
  { split; [done|]. intros (_ & Hs & _).
    rewrite Hs in Eseen by apply list_elem_of_here. done. }
  destruct (validateBidder (h x)) eqn:Ev.
  { split; [done|]. intros (_ & _ & Hv).
    rewrite Hv in Ev by apply list_elem_of_here. done. }
  rewrite IH. split.
  - intros (Hnd & Hs & Hv). split; [split; [|done]|split].
    + intros Hin. apply list_elem_of_fmap in Hin as (p & Hid & Hp).
      specialize (Hs p Hp). rewrite <- Hid in Hs.
      by rewrite lookup_insert_eq in Hs.
    + intros p [->|Hp]%elem_of_cons; [done|].
      specialize (Hs p Hp). by apply lookup_insert_None in Hs as [? _].
    + intros p [->|Hp]%elem_of_cons; [done|by apply Hv].
  - intros ((Hx & Hnd) & Hs & Hv). split; [done|split].
    + intros p Hp. apply lookup_insert_None. split.
      * apply Hs. by apply list_elem_of_further.
      * intros E. apply Hx. rewrite E.
        by apply (list_elem_of_fmap_2 (λ p, ID (h p)) l p).
    + intros p Hp. apply Hv. by apply list_elem_of_further.
Qed.

(** What the loop's errors report: a repeated identity sits at a position
    [j] and was seen before the loop or at an earlier position; an invalid
    bidder is in the list and fails [validateBidder] with that message. *)
Lemma validateBidders_Some h seenIDs l err :
  validateBidders h seenIDs l = Some err →
  match err with
  | InsufficientBidders => False
  | DuplicateBidder id =>
      ∃ j q, l !! j = Some q ∧ ID (h q) = id
        ∧ (is_Some (seenIDs !! id)
           ∨ ∃ i p, i < j ∧ l !! i = Some p ∧ ID (h p) = id)
  | InvalidBidderData id berr =>
      ∃ b, b ∈ l ∧ ID (h b) = id ∧ validateBidder (h b) = Some berr
  end.
Proof.
  revert seenIDs. induction l as [|x l IH]; intros seenIDs; simpl; [done|].
  destruct (seenIDs !! ID (h x)) eqn:Eseen.
  { intros [= <-]. exists 0, x. repeat split; try done. left. by eexists. }
  destruct (validateBidder (h x)) eqn:Ev.
  { intros [= <-]. exists x. split; [apply list_elem_of_here|done]. }
  intros H. specialize (IH _ H). destruct err as [|id|id berr]; [done| |].
  - destruct IH as (j & q & Hj & Hq & Hprev). exists (S j), q.
    split; [done|]. split; [done|].
    destruct Hprev as [Hs|(i & p & Hij & Hi & Hp)].
    + destruct (decide (ID (h x) = id)) as [Hx|Hx].
      * right. exists 0, x. split; [lia|done].
      * left. by rewrite lookup_insert_ne in Hs.
    + right. exists (S i), p. split; [lia|done].
  - destruct IH as (b & Hb & Hid & Hv). exists b.
    split; [by apply list_elem_of_further|done].
Qed.

(** Two positions with one identity contradict [NoDup] of the identities. *)
Lemma shared_ID_not_NoDup (h : Heap) (l : list ptr) i j p q :
  i < j → l !! i = Some p → l !! j = Some q → ID (h p) = ID (h q) →
  ¬ NoDup ((λ x, ID (h x)) <$> l).
Proof.
  intros Hij Hi Hj E Hnd.
  assert (i = j); [|lia].
  apply (NoDup_lookup _ i j (ID (h p)) Hnd).
  - by rewrite list_lookup_fmap, Hi.
  - by rewrite list_lookup_fmap, Hj, E.
Qed.

(** C4. [NewAuction] fails, returning no auction, exactly when the list has
    fewer than two bidders, or two of its entries carry one identity, or
    some bidder has [StartingBid <= 0], [MaxBid < StartingBid] or
    [AutoIncrement <= 0]. Each error names its cause: the duplicate error
    carries an identity found at two positions, whatever the other fields
    of those records are, and the bidder errors carry the identity and the
    offending values of a bidder of the list. With at least two bidders of
    pairwise distinct identities and valid parameters it returns the
    auction that holds the given list. *)
Theorem NewAuction_validation uuid_New h na :
  ((∃ err, NewAuction uuid_New h na = inl err) ↔
     length (ConfigBidders na) < 2
     ∨ ¬ NoDup ((λ p, ID (h p)) <$> ConfigBidders na)
     ∨ ∃ b, b ∈ ConfigBidders na
         ∧ ((StartingBid (h b) <=? 0)%float = true
            ∨ (MaxBid (h b) <? StartingBid (h b))%float = true
            ∨ (AutoIncrement (h b) <=? 0)%float = true))
  ∧ (NewAuction uuid_New h na = inl (InvalidAuctionData InsufficientBidders)
     ↔ length (ConfigBidders na) < 2)
  ∧ (∀ id,
       NewAuction uuid_New h na = inl (InvalidAuctionData (DuplicateBidder id))
       → ∃ i j p q, i < j
           ∧ ConfigBidders na !! i = Some p ∧ ConfigBidders na !! j = Some q
           ∧ ID (h p) = id ∧ ID (h q) = id)
  ∧ (∀ id berr,
       NewAuction uuid_New h na
       = inl (InvalidAuctionData (InvalidBidderData id berr))
       → ∃ b, b ∈ ConfigBidders na ∧ ID (h b) = id
           ∧ bidderErrorCause (h b) berr)
  ∧ (2 ≤ length (ConfigBidders na) →
     NoDup ((λ p, ID (h p)) <$> ConfigBidders na) →
     (∀ b, b ∈ ConfigBidders na →
           (0 <? StartingBid (h b))%float = true
           ∧ (StartingBid (h b) <=? MaxBid (h b))%float = true
           ∧ (0 <? AutoIncrement (h b))%float = true) →
     NewAuction uuid_New h na = inr (mkAuction uuid_New (ConfigBidders na))).
Proof.
  unfold NewAuction, validateAuctionData.
  destruct (length (ConfigBidders na) <=? 1)%nat eqn:Elen.
  { apply Nat.leb_le in Elen.
    split; [|split; [|split; [|split]]]; try done.
    - split; [intros _; left; lia|intros _; by eexists].
    - split; [intros _; lia|done].
    - lia. }
  apply Nat.leb_gt in Elen.
  destruct (validateBidders h ∅ (ConfigBidders na)) as [err|] eqn:Ev.
  - pose proof (validateBidders_Some _ _ _ _ Ev) as Hcause.
    assert (∀ id, err = DuplicateBidder id →
              ∃ i j p q, i < j
                ∧ ConfigBidders na !! i = Some p
                ∧ ConfigBidders na !! j = Some q
                ∧ ID (h p) = id ∧ ID (h q) = id) as Hdup.
    { intros id ->. destruct Hcause as (j & q & Hj & Hq & [Hs|Hprev]).
      - rewrite lookup_empty in Hs. by destruct Hs.
      - destruct Hprev as (i & p & Hij & Hi & Hp). by exists i, j, p, q. }
    split; [|split; [|split; [|split]]].
    + split; [intros _|intros _; by eexists].
      destruct err as [|id|id berr]; [done| |].
      * right. left.
        destruct (Hdup id eq_refl) as (i & j & p & q & Hij & Hi & Hj & Hp & Hq).
        apply (shared_ID_not_NoDup h _ i j p q); congruence.
      * right. right. destruct Hcause as (b & Hb & _ & Hv). exists b.
        split; [done|]. apply validateBidder_Some in Hv.
        destruct berr; simpl in Hv.
        -- left. by destruct Hv.
        -- right. left. by destruct Hv as (_ & _ & ?).
        -- right. right. by destruct Hv.
    + split; [|lia]. intros [= ->]. done.
    + intros id [= ->]. by apply Hdup.
    + intros id berr [= ->]. destruct Hcause as (b & Hb & Hid & Hv).
      exists b. split; [done|]. split; [done|].
      by apply validateBidder_Some.
    + intros _ Hnd Hvalid. exfalso.
      assert (validateBidders h ∅ (ConfigBidders na) = None) as E;
        [|by rewrite E in Ev].
      apply validateBidders_None. split; [done|]. split.
      * intros p _. apply lookup_empty.
      * intros p Hp. destruct (Hvalid p Hp) as (? & ? & ?).
        by apply validateBidder_valid.
  - apply validateBidders_None in Ev as (Hnd & _ & Hv).
    split; [|split; [|split; [|split]]]; try done.
    + split; [by intros [err ?]|].
      intros [?|[?|(b & Hb & Hbad)]]; [lia|done|].
      apply Hv, validateBidder_None in Hb as (E1 & E2 & E3).
      rewrite E1, E2, E3 in Hbad. by destruct Hbad as [?|[?|?]].
    + split; [done|lia].
Qed.

(** ** The order of the sweep *)

Section SweepOrder.

Variable clock : nat → Time.

Lemma visits_eraseTime id b : visits id (eraseTime b) = visits id b.
Proof. done. Qed.

Lemma raised_eraseTime id b : eraseTime (raised id b) = raised id (eraseTime b).
Proof. unfold raised. rewrite visits_eraseTime. by destruct (visits id b). Qed.

Lemma bidsAgree_refl w : bidsAgree w w.
Proof. by split. Qed.

Lemma bidsAgree_trans w1 w2 w3 :
  bidsAgree w1 w2 → bidsAgree w2 w3 → bidsAgree w1 w3.
Proof.
  intros [Ht Hh] [Ht' Hh']. split; [congruence|].
  intros q. by rewrite Hh.
Qed.

Lemma bidsAgree_ID w1 w2 q :
  bidsAgree w1 w2 → ID (heap w1 q) = ID (heap w2 q).
Proof. intros [_ Hh]. exact (f_equal ID (Hh q)). Qed.

(** One iteration, with the times forgotten. *)
Lemma autoIncrement_erased bidder w o q :
  eraseTime (heap (autoIncrement clock bidder w o) q)
  = if decide (q = o)
    then raised (ID (heap w bidder)) (eraseTime (heap w o))
    else eraseTime (heap w q).
Proof.
  destruct (decide (q = o)) as [->|Hq].
  - rewrite <- raised_eraseTime. unfold raised, visits.
    pose proof (autoIncrement_visited clock bidder w o) as H.
    cbv zeta in H. destruct (_ && _); [by destruct H as [-> _]|by rewrite H].
  - by rewrite autoIncrement_elsewhere.
Qed.

Lemma autoIncrement_reads bidder w o :
  ticks (autoIncrement clock bidder w o)
  = if visits (ID (heap w bidder)) (heap w o) then S (ticks w) else ticks w.
Proof.
  unfold visits. pose proof (autoIncrement_visited clock bidder w o) as H.
  cbv zeta in H. destruct (_ && _); [by destruct H as [_ ->]|by rewrite H].
Qed.

(** Worlds that agree on the bids still agree after the same iteration. *)
Lemma autoIncrement_agree bidder w1 w2 o :
  bidsAgree w1 w2 →
  bidsAgree (autoIncrement clock bidder w1 o)
            (autoIncrement clock bidder w2 o).
Proof.
  intros Hw. pose proof (bidsAgree_ID w1 w2 bidder Hw) as Hid.
  destruct Hw as [Ht Hh]. split.
  - rewrite !autoIncrement_reads, Hid, Ht.
    by rewrite <- (visits_eraseTime _ (heap w1 o)), Hh.
  - intros q. by rewrite !autoIncrement_erased, Hid, !Hh.
Qed.

(** Two iterations commute, times apart. *)
Lemma autoIncrement_swap bidder w x y :
  bidsAgree
    (autoIncrement clock bidder (autoIncrement clock bidder w x) y)
    (autoIncrement clock bidder (autoIncrement clock bidder w y) x).
Proof.
  destruct (decide (x = y)) as [->|Hxy]; [apply bidsAgree_refl|].
  destruct (autoIncrement_static clock bidder w x bidder) as (Hx & _).
  destruct (autoIncrement_static clock bidder w y bidder) as (Hy & _).
  split.
  - rewrite !autoIncrement_reads, Hx, Hy.
    rewrite (autoIncrement_elsewhere clock bidder w x y) by done.
    rewrite (autoIncrement_elsewhere clock bidder w y x) by done.
    by destruct (visits _ (heap w x)), (visits _ (heap w y)).
  - intros q. rewrite !autoIncrement_erased, Hx, Hy.
    rewrite (decide_False (P := y = x)), (decide_False (P := x = y)) by done.
    destruct (decide (q = y)) as [Ey|Hqy], (decide (q = x)) as [Ex|Hqx];
      subst; done.
Qed.

Lemma sweep_agree bidder l w1 w2 :
  bidsAgree w1 w2 →
  bidsAgree (fold_left (autoIncrement clock bidder) l w1)
            (fold_left (autoIncrement clock bidder) l w2).
Proof.
  revert w1 w2. induction l as [|o l IH]; intros w1 w2 Hw; simpl; [done|].
  by apply IH, autoIncrement_agree.
Qed.

(** The sweep over a permutation of the list leaves the same bids. *)
Lemma sweep_permutation bidder l l' w :
  l ≡ₚ l' →
  bidsAgree (fold_left (autoIncrement clock bidder) l w)
            (fold_left (autoIncrement clock bidder) l' w).
Proof.
  intros Hp. revert w.
  induction Hp as [|x l l' _ IH|x y l|l1 l2 l3 _ IH1 _ IH2]; intros w; simpl.
  - apply bidsAgree_refl.
  - apply IH.
  - apply sweep_agree, autoIncrement_swap.
  - by eapply bidsAgree_trans.
Qed.

(** C6, as the code has it. Sweeping the other bidders in any permutation
    of the stored order gives the same result of [PlaceBid], the same
    number of clock reads, and for every record the same identity, name,
    bounds, increment and [CurrentBid]; so a bidder whose bid ends strictly
    above every other one's is the winner whichever order was swept. The
    [LastBidTime] of the swept bidders is not covered: each is a clock read
    of its own, taken in the order of the sweep. *)
Theorem sweep_order_bids a a' bidder bidAmount w :
  Bidders a' ≡ₚ Bidders a →
  (PlaceBid clock a' bidder bidAmount w).1
  = (PlaceBid clock a bidder bidAmount w).1
  ∧ ticks (PlaceBid clock a' bidder bidAmount w).2
    = ticks (PlaceBid clock a bidder bidAmount w).2
  ∧ (∀ q,
       let b' := heap (PlaceBid clock a' bidder bidAmount w).2 q in
       let b := heap (PlaceBid clock a bidder bidAmount w).2 q in
       ID b' = ID b ∧ Name b' = Name b ∧ StartingBid b' = StartingBid b
       ∧ MaxBid b' = MaxBid b ∧ CurrentBid b' = CurrentBid b
       ∧ AutoIncrement b' = AutoIncrement b)
  ∧ (∀ b,
       b ∈ Bidders a →
       (∀ o, o ∈ Bidders a → o ≠ b →
          (CurrentBid (heap (PlaceBid clock a bidder bidAmount w).2 o)
           <? CurrentBid (heap (PlaceBid clock a bidder bidAmount w).2 b)
          )%float = true) →
       DetermineWinner a (heap (PlaceBid clock a' bidder bidAmount w).2)
       = Some b
       ∧ DetermineWinner a (heap (PlaceBid clock a bidder bidAmount w).2)
         = Some b).
Proof.
  intros Hp.
  assert (bidsAgree (PlaceBid clock a' bidder bidAmount w).2
                    (PlaceBid clock a bidder bidAmount w).2) as [Ht Hh].
  { rewrite !PlaceBid_cases. cbv zeta.
    destruct (bidAmount <? _)%float; [apply bidsAgree_refl|].
    destruct (_ <? bidAmount)%float; [apply bidsAgree_refl|].
    destruct (bidAmount <=? _)%float; [apply bidsAgree_refl|].
    by apply sweep_permutation. }
  split; [|split; [done|split]].
  - rewrite !PlaceBid_cases. cbv zeta.
    by repeat (case_match; try done).
  - intros q. pose proof (Hh q) as [= ? ? ? ? ? ?]. done.
  - intros b Hb Hbest.
    split; (apply DetermineWinner_best; [done|]); intros o Ho Hob; left.
    + pose proof (Hh o) as [= _ _ _ _ -> _].
      pose proof (Hh b) as [= _ _ _ _ -> _]. by apply Hbest.
    + by apply Hbest.
Qed.

End SweepOrder.

(** C6, as the specification words it, fails: with a clock that advances
    at every read, Y and Z of [tieAuction] both reach 15, and the one swept
    first holds the earlier time and wins. *)
Lemma sweep_order_observable :
  ¬ ∀ (clock : nat → Time) (a a' : Auction) (bidder : ptr)
      (bidAmount : float) (w : World),
      Bidders a' ≡ₚ Bidders a →
      (PlaceBid clock a bidder bidAmount w).1 = None →
      (∀ q, heap (PlaceBid clock a' bidder bidAmount w).2 q
            = heap (PlaceBid clock a bidder bidAmount w).2 q)
      ∧ DetermineWinner a (heap (PlaceBid clock a' bidder bidAmount w).2)
        = DetermineWinner a (heap (PlaceBid clock a bidder bidAmount w).2).
Proof.
  intros H.
  destruct (H sampleClock tieAuction tieAuctionSwapped 0 2%float tieWorld)
    as [_ Hw].
  - apply perm_skip, perm_swap.
  - reflexivity.
  - vm_compute in Hw. discriminate Hw.
Qed.

Lemma sweep_order_bids_witness :
  CurrentBid (heap (PlaceBid sampleClock tieAuctionSwapped 0 2 tieWorld).2 1)
  = CurrentBid (heap (PlaceBid sampleClock tieAuction 0 2 tieWorld).2 1).
Proof.
  destruct (sweep_order_bids sampleClock tieAuction tieAuctionSwapped 0 2
              tieWorld) as (_ & _ & Hq & _).
  - apply perm_skip, perm_swap.
  - by destruct (Hq 1) as (_ & _ & _ & _ & ? & _).
Defined.

(** ** Bids that are not numbers *)

(** NaN is neither below, nor above, nor equal to anything. *)
Lemma nan_ltb x : (nan <? x)%float = false.
Proof. by rewrite FloatAxioms.ltb_spec. Qed.

Lemma ltb_nan x : (x <? nan)%float = false.
Proof.
  rewrite FloatAxioms.ltb_spec. unfold SFltb.
  change (Prim2SF nan) with S754_nan. by destruct (Prim2SF x).
Qed.

Lemma nan_leb x : (nan <=? x)%float = false.
Proof. by rewrite FloatAxioms.leb_spec. Qed.

Lemma leb_nan x : (x <=? nan)%float = false.
Proof.
  rewrite FloatAxioms.leb_spec. unfold SFleb.
  change (Prim2SF nan) with S754_nan. by destruct (Prim2SF x).
Qed.

(** None of the three checks of [PlaceBid] stops a NaN amount: for every
    auction, bidder and world the call succeeds and leaves NaN in the
    bidder's [CurrentBid], which then lies in no interval. *)
Lemma PlaceBid_NaN_accepted clock a bidder w :
  (PlaceBid clock a bidder nan w).1 = None
  ∧ CurrentBid (heap (PlaceBid clock a bidder nan w).2 bidder) = nan
  ∧ ∀ x, (x <=? CurrentBid (heap (PlaceBid clock a bidder nan w).2 bidder)
         )%float = false
         ∧ (CurrentBid (heap (PlaceBid clock a bidder nan w).2 bidder) <=? x
           )%float = false.
Proof.
  rewrite PlaceBid_cases. cbv zeta.
  rewrite nan_ltb, ltb_nan, nan_leb. cbn [fst snd].
  rewrite sweep_same_ID by done. rewrite bidRecorded_bidder.
  split; [done|]. split; [done|]. intros x. simpl.
  by rewrite leb_nan, nan_leb.
Qed.

(** C5 fails on the code. The parameters of the bidder Sasha are valid and
    its [CurrentBid] lies within its bounds; [PlaceBid] accepts the amount
    NaN for it, after which its [CurrentBid] is neither at least its
    [StartingBid], nor at most its [MaxBid], nor at least what it was. *)
Theorem PlaceBid_NaN_breaks_bounds :
  let b := heap sampleWorld sasha in
  let r := PlaceBid sampleClock sampleAuction sasha nan sampleWorld in
  let b' := heap r.2 sasha in
  ((0 <? StartingBid b)%float = true
   ∧ (StartingBid b <=? MaxBid b)%float = true
   ∧ (0 <? AutoIncrement b)%float = true
   ∧ (StartingBid b <=? CurrentBid b)%float = true
   ∧ (CurrentBid b <=? MaxBid b)%float = true)
  ∧ r.1 = None
  ∧ (StartingBid b' <=? CurrentBid b')%float = false
  ∧ (CurrentBid b' <=? MaxBid b')%float = false
  ∧ (CurrentBid b <=? CurrentBid b')%float = false.
Proof. by vm_compute. Qed.

(** ** Bounds under bids that are numbers *)

Section Bounds.

Variable clock : nat → Time.

Lemma withinBounds_start b :
  (StartingBid b <=? CurrentBid b)%float = true →
  (CurrentBid b <=? MaxBid b)%float = true →
  withinBounds b b.
Proof.
  intros H1 H2. repeat split; try done.
  apply float_leb_refl. by destruct (float_leb_number _ _ H2).
Qed.

(** One iteration of the sweep keeps a bidder within its bounds. *)
Lemma autoIncrement_withinBounds bidder w o q b0 :
  (0 <? StartingBid b0)%float = true →
  (0 <? AutoIncrement b0)%float = true →
  withinBounds b0 (heap w q) →
  withinBounds b0 (heap (autoIncrement clock bidder w o) q).
Proof.
  intros Hs Hi Hb. destruct (decide (q = o)) as [->|Hq].
  2: { by rewrite autoIncrement_elsewhere. }
  pose proof (autoIncrement_visited clock bidder w o) as H. cbv zeta in H.
  destruct (negb _); [|by rewrite H].
  destruct (_ + _ <=? _)%float eqn:Hmax; [|by rewrite H].
  destruct H as [-> _].
  destruct Hb as (Es & Em & Ei & Hlo & Hhi & Hup).
  assert ((CurrentBid (heap w o)
           <=? CurrentBid (heap w o) + AutoIncrement (heap w o))%float = true)
    as Hge.
  { apply float_add_ge; [|by rewrite Ei].
    apply (float_ltb_leb_trans _ (StartingBid (heap w o))); [|done].
    by rewrite Es. }
  repeat split; try done; simpl.
  - by apply (float_leb_trans _ (CurrentBid (heap w o))).
  - by apply (float_leb_trans _ (CurrentBid (heap w o))).
Qed.

Lemma sweep_withinBounds bidder l w q b0 :
  (0 <? StartingBid b0)%float = true →
  (0 <? AutoIncrement b0)%float = true →
  withinBounds b0 (heap w q) →
  withinBounds b0 (heap (fold_left (autoIncrement clock bidder) l w) q).
Proof.
  intros Hs Hi. revert w.
  induction l as [|o l IH]; intros w Hb; simpl; [done|].
  by apply IH, autoIncrement_withinBounds.
Qed.

(** C5 for the bids that are numbers. A bidder with valid parameters whose
    [CurrentBid] lies between its [StartingBid] and its [MaxBid] is still so
    after any [PlaceBid] of an amount other than NaN, by itself or by
    another bidder, rejected or accepted, and its [CurrentBid] has not gone
    down. *)
Theorem PlaceBid_keeps_bounds a bidder bidAmount w q :
  (bidAmount =? bidAmount)%float = true →
  (0 <? StartingBid (heap w q))%float = true →
  (StartingBid (heap w q) <=? MaxBid (heap w q))%float = true →
  (0 <? AutoIncrement (heap w q))%float = true →
  (StartingBid (heap w q) <=? CurrentBid (heap w q))%float = true →
  (CurrentBid (heap w q) <=? MaxBid (heap w q))%float = true →
  withinBounds (heap w q) (heap (PlaceBid clock a bidder bidAmount w).2 q).
Proof.
  intros Hnum Hs Hsm Hi Hlo Hhi.
  pose proof (withinBounds_start _ Hlo Hhi) as Hb0.
  rewrite PlaceBid_cases. cbv zeta.
  destruct (bidAmount <? _)%float eqn:E1; [done|].
  destruct (_ <? bidAmount)%float eqn:E2; [done|].
  destruct (bidAmount <=? _)%float eqn:E3; [done|].
  cbn [snd]. apply sweep_withinBounds; try done.
  destruct (decide (q = bidder)) as [->|Hq].
  2: { by rewrite bidRecorded_elsewhere. }
  rewrite bidRecorded_bidder.
  destruct (float_ltb_number _ _ Hs) as [_ Hstart].
  destruct (float_leb_number _ _ Hhi) as [Hcur Hmax].
  repeat split; try done; simpl.
  - by apply float_not_ltb.
  - by apply float_not_ltb.
  - by apply float_ltb_leb, float_not_leb.
Qed.

End Bounds.

Lemma PlaceBid_keeps_bounds_witness :
  withinBounds (heap sampleWorld john)
    (heap (PlaceBid sampleClock sampleAuction sasha 53 sampleWorld).2 john).
Proof.
  apply (PlaceBid_keeps_bounds sampleClock sampleAuction sasha 53 sampleWorld
           john); reflexivity.
Defined.

(** ** The first scenario of the test

    Which identifiers [uuid.New] hands out does not matter as long as they
    differ, so the run is computed once, with the sample identifiers. *)

Section Identities.

Variable clock : nat → Time.

Lemma alike_fields w1 w2 q :
  alike w1 w2 →
  Name (heap w1 q) = Name (heap w2 q)
  ∧ StartingBid (heap w1 q) = StartingBid (heap w2 q)
  ∧ MaxBid (heap w1 q) = MaxBid (heap w2 q)
  ∧ CurrentBid (heap w1 q) = CurrentBid (heap w2 q)
  ∧ AutoIncrement (heap w1 q) = AutoIncrement (heap w2 q)
  ∧ LastBidTime (heap w1 q) = LastBidTime (heap w2 q).
Proof. intros (_ & H & _). by pose proof (H q) as [= ? ? ? ? ? ?]. Qed.

Lemma setCurrentBid_alike p v w1 w2 :
  alike w1 w2 → alike (setCurrentBid p v w1) (setCurrentBid p v w2).
Proof.
  intros Hw. pose proof Hw as (Ht & Hh & Hid). split; [done|]. split.
  - intros q. rewrite !heap_setCurrentBid. case_decide; [|done].
    pose proof (Hh p) as [= ? ? ? ? ? ?]. unfold eraseID. simpl. congruence.
  - intros q1 q2. rewrite !heap_setCurrentBid.
    specialize (Hid q1 q2). pose proof (Hid' := Hid).
    repeat case_decide; subst; simpl; done.
Qed.

Lemma setLastBidTime_alike p t w1 w2 :
  alike w1 w2 → alike (setLastBidTime p t w1) (setLastBidTime p t w2).
Proof.
  intros Hw. pose proof Hw as (Ht & Hh & Hid). split; [done|]. split.
  - intros q. rewrite !heap_setLastBidTime. case_decide; [|done].
    pose proof (Hh p) as [= ? ? ? ? ? ?]. unfold eraseID. simpl. congruence.
  - intros q1 q2. rewrite !heap_setLastBidTime.
    specialize (Hid q1 q2).
    repeat case_decide; subst; simpl; done.
Qed.

Lemma time_Now_alike w1 w2 :
  alike w1 w2 →
  (time_Now clock w1).1 = (time_Now clock w2).1
  ∧ alike (time_Now clock w1).2 (time_Now clock w2).2.
Proof.
  intros (Ht & Hh & Hid). unfold time_Now. simpl. rewrite Ht.
  split; [done|]. by split.
Qed.

(** Writing a bid and stamping it with the next clock read. *)
Lemma stamped_alike p v w1 w2 :
  alike w1 w2 →
  alike (let '(now, w) := time_Now clock (setCurrentBid p v w1) in
         setLastBidTime p now w)
        (let '(now, w) := time_Now clock (setCurrentBid p v w2) in
         setLastBidTime p now w).
Proof.
  intros Hw.
  destruct (time_Now_alike _ _ (setCurrentBid_alike p v w1 w2 Hw)) as [Hn Ha].
  destruct (time_Now clock (setCurrentBid p v w1)) as [n1 x1],
    (time_Now clock (setCurrentBid p v w2)) as [n2 x2].
  simpl in Hn, Ha. subst n2. by apply setLastBidTime_alike.
Qed.

Lemma autoIncrement_alike bidder w1 w2 o :
  alike w1 w2 →
  alike (autoIncrement clock bidder w1 o) (autoIncrement clock bidder w2 o).
Proof.
  intros Hw. unfold autoIncrement.
  destruct (alike_fields w1 w2 o Hw) as (_ & _ & -> & -> & -> & _).
  pose proof Hw as (_ & _ & Hid). rewrite (Hid o bidder).
  destruct (negb _); [|done].
  destruct (_ <=? _)%float; [|done].
  by apply stamped_alike.
Qed.

Lemma sweep_alike bidder l w1 w2 :
  alike w1 w2 →
  alike (fold_left (autoIncrement clock bidder) l w1)
        (fold_left (autoIncrement clock bidder) l w2).
Proof.
  revert w1 w2. induction l as [|o l IH]; intros w1 w2 Hw; simpl; [done|].
  by apply IH, autoIncrement_alike.
Qed.

Lemma PlaceBid_alike a bidder bidAmount w1 w2 :
  alike w1 w2 →
  (PlaceBid clock a bidder bidAmount w1).1
  = (PlaceBid clock a bidder bidAmount w2).1
  ∧ alike (PlaceBid clock a bidder bidAmount w1).2
          (PlaceBid clock a bidder bidAmount w2).2.
Proof.
  intros Hw. rewrite !PlaceBid_cases. cbv zeta.
  destruct (alike_fields w1 w2 bidder Hw) as (_ & -> & -> & -> & _).
  destruct (bidAmount <? _)%float; [done|].
  destruct (_ <? bidAmount)%float; [done|].
  destruct (bidAmount <=? _)%float; [done|].
  split; [done|]. apply sweep_alike. by apply stamped_alike.
Qed.

Lemma biddingRound_alike a l active w1 w2 :
  alike w1 w2 →
  (biddingRound clock a l active w1).1 = (biddingRound clock a l active w2).1
  ∧ alike (biddingRound clock a l active w1).2
          (biddingRound clock a l active w2).2.
Proof.
  revert active w1 w2.
  induction l as [|b l IH]; intros active w1 w2 Hw; simpl; [done|].
  destruct (alike_fields w1 w2 b Hw) as (_ & _ & -> & -> & -> & _).
  destruct (_ <=? _)%float; [|by apply IH].
  destruct (PlaceBid_alike a b
              (CurrentBid (heap w2 b) + AutoIncrement (heap w2 b)) w1 w2 Hw)
    as [He Ha].
  destruct (PlaceBid clock a b _ w1) as [e1 w1'],
    (PlaceBid clock a b _ w2) as [e2 w2']. simpl in He, Ha. subst e2.
  destruct e1; by apply IH.
Qed.

Lemma biddingRounds_alike fuel a l w1 w2 :
  alike w1 w2 →
  match biddingRounds clock fuel a l w1, biddingRounds clock fuel a l w2 with
  | Some w1', Some w2' => alike w1' w2'
  | None, None => True
  | _, _ => False
  end.
Proof.
  revert w1 w2. induction fuel as [|fuel IH]; intros w1 w2 Hw; simpl; [done|].
  destruct (biddingRound_alike a l false w1 w2 Hw) as [Hact Ha].
  destruct (biddingRound clock a l false w1) as [act1 w1'],
    (biddingRound clock a l false w2) as [act2 w2']. simpl in Hact, Ha.
  subst act2. destruct act1; [by apply IH|done].
Qed.

Lemma DetermineWinner_alike a w1 w2 :
  alike w1 w2 → DetermineWinner a (heap w1) = DetermineWinner a (heap w2).
Proof.
  intros Hw. unfold DetermineWinner.
  assert (∀ win b, scanBidder (heap w1) win b = scanBidder (heap w2) win b)
    as Hscan.
  { intros win b. unfold scanBidder, isWinner. destruct win as [cw|]; [|done].
    destruct (alike_fields w1 w2 b Hw) as (_ & _ & _ & -> & _ & ->).
    by destruct (alike_fields w1 w2 cw Hw) as (_ & _ & _ & -> & _ & ->). }
  generalize (@None ptr).
  induction (Bidders a) as [|b l IH]; intros win; simpl; [done|].
  by rewrite Hscan, IH.
Qed.

End Identities.

Lemma referenceWorld_alike clock ids :
  ids 0 ≠ ids 1 → ids 0 ≠ ids 2 → ids 1 ≠ ids 2 →
  alike (referenceWorld ids clock) (referenceWorld sampleIDs clock).
Proof.
  intros H01 H02 H12. split; [done|]. split.
  - by intros [|[|q]].
  - intros [|[|p]] [|[|q]]; simpl; rewrite ?N.eqb_refl; try done;
      apply N.eqb_neq; congruence.
Qed.

(** [NewAuction] accepts the three reference bidders. *)
Lemma referenceAuction_created clock ids uuid_New :
  ids 0 ≠ ids 1 → ids 0 ≠ ids 2 → ids 1 ≠ ids 2 →
  NewAuction uuid_New (referenceHeap ids clock) (mkConfig referenceBidders)
  = inr (mkAuction uuid_New referenceBidders).
Proof.
  intros H01 H02 H12. unfold NewAuction, validateAuctionData.
  cbn [ConfigBidders]. change (length referenceBidders <=? 1)%nat with false.
  assert (validateBidders (referenceHeap ids clock) ∅ referenceBidders = None)
    as E; [|by rewrite E].
  apply validateBidders_None. split; [|split].
  - simpl. repeat (apply NoDup_cons; split); try apply NoDup_nil_2;
      rewrite ?not_elem_of_cons; repeat split; try done;
      apply not_elem_of_nil.
  - intros p _. apply lookup_empty.
  - intros p Hp. unfold referenceBidders in Hp.
    repeat (apply elem_of_cons in Hp as [->|Hp]; [done|]).
    by apply elem_of_nil in Hp.
Qed.

(** The run with the sample identifiers, for every clock: the sixth round
    places no bid, the bids end at 80, 82 and 85, and Pat is returned. *)
Lemma sample_run clock uuid_New fuel :
  match biddingRounds clock (6 + fuel) (mkAuction uuid_New referenceBidders)
          referenceBidders (referenceWorld sampleIDs clock) with
  | Some w' =>
      DetermineWinner (mkAuction uuid_New referenceBidders) (heap w')
      = Some pat
      ∧ Name (heap w' pat) = "Pat"
      ∧ CurrentBid (heap w' sasha) = 80%float
      ∧ CurrentBid (heap w' john) = 82%float
      ∧ CurrentBid (heap w' pat) = 85%float
  | None => False
  end.
Proof. vm_compute. done. Qed.

(** C7. Sasha (50 to 80 by 3), John (60 to 82 by 2) and Pat (55 to 85 by 5)
    are created with distinct identifiers and [CurrentBid] at the starting
    bid; [NewAuction] accepts them; the test's loop, in which every bidder
    in turn bids its own next step while it can afford it, stops after six
    rounds, whatever the clock shows, with the bids at 80, 82 and 85; and
    [DetermineWinner] then returns Pat. *)
Theorem reference_scenario_Pat_wins clock ids uuid_New fuel :
  ids 0 ≠ ids 1 → ids 0 ≠ ids 2 → ids 1 ≠ ids 2 →
  ∃ a w',
    NewAuction uuid_New (referenceHeap ids clock) (mkConfig referenceBidders)
    = inr a
    ∧ biddingRounds clock (6 + fuel) a referenceBidders
        (referenceWorld ids clock) = Some w'
    ∧ DetermineWinner a (heap w') = Some pat
    ∧ Name (heap w' pat) = "Pat"
    ∧ CurrentBid (heap w' sasha) = 80%float
    ∧ CurrentBid (heap w' john) = 82%float
    ∧ CurrentBid (heap w' pat) = 85%float.
Proof.
  intros H01 H02 H12. exists (mkAuction uuid_New referenceBidders).
  pose proof (biddingRounds_alike clock (6 + fuel)
                (mkAuction uuid_New referenceBidders) referenceBidders
                _ _ (referenceWorld_alike clock ids H01 H02 H12)) as Hsim.
  pose proof (sample_run clock uuid_New fuel) as Hrun.
  destruct (biddingRounds clock (6 + fuel) _ _ (referenceWorld ids clock))
    as [w'|]; destruct (biddingRounds clock (6 + fuel) _ _
                          (referenceWorld sampleIDs clock)) as [ws|];
    try done.
  exists w'. split; [by apply referenceAuction_created|]. split; [done|].
  destruct Hrun as (Hwin & Hname & Hs & Hj & Hp).
  rewrite (DetermineWinner_alike _ w' ws Hsim).
  destruct (alike_fields w' ws sasha Hsim) as (_ & _ & _ & -> & _).
  destruct (alike_fields w' ws john Hsim) as (_ & _ & _ & -> & _).
  destruct (alike_fields w' ws pat Hsim) as (-> & _ & _ & -> & _).
  done.
Qed.

Lemma reference_scenario_Pat_wins_witness :
  ∃ a w',
    NewAuction 9%N (referenceHeap sampleIDs sampleClock)
      (mkConfig referenceBidders) = inr a
    ∧ biddingRounds sampleClock 6 a referenceBidders sampleWorld = Some w'
    ∧ DetermineWinner a (heap w') = Some pat
    ∧ Name (heap w' pat) = "Pat"
    ∧ CurrentBid (heap w' sasha) = 80%float
    ∧ CurrentBid (heap w' john) = 82%float
    ∧ CurrentBid (heap w' pat) = 85%float.
Proof.
  apply (reference_scenario_Pat_wins sampleClock sampleIDs 9%N 0); done.
Defined.

(** * Further properties *)

(** ** More order facts on binary64 *)

Lemma float_eqb_key x y :
  (x =? y)%float = true ↔
  ∃ k, SFkey (Prim2SF x) = Some k ∧ SFkey (Prim2SF y) = Some k.
Proof.
  rewrite FloatAxioms.eqb_spec. unfold SFeqb. rewrite SFcompare_key.
  destruct (SFkey (Prim2SF x)) as [k1|], (SFkey (Prim2SF y)) as [k2|];
    try (split; [done|by intros (? & ? & ?)]).
  split.
  - intros H. exists k1. split; [done|]. f_equal. symmetry.
    apply keyCompare_Eq. by destruct (keyCompare k1 k2).
  - intros (k & [= ->] & [= ->]).
    by rewrite (proj2 (keyCompare_Eq k k) eq_refl).
Qed.

Lemma float_ltb_trans x y z :
  (x <? y)%float = true → (y <? z)%float = true → (x <? z)%float = true.
Proof.
  intros H1 H2. apply (float_ltb_leb_trans _ y); [done|].
  by apply float_ltb_leb.
Qed.

Lemma float_eqb_leb x y : (x =? y)%float = true → (x <=? y)%float = true.
Proof.
  rewrite FloatAxioms.eqb_spec, FloatAxioms.leb_spec. unfold SFeqb, SFleb.
  by destruct (SFcompare _ _) as [[]|].
Qed.

Lemma float_eqb_ltb_trans x y z :
  (x =? y)%float = true → (y <? z)%float = true → (x <? z)%float = true.
Proof.
  rewrite float_eqb_key, !float_ltb_key.
  intros (k & Hx & Hy) (k2 & k3 & Hy' & Hz & Hlt).
  rewrite Hy in Hy'. injection Hy' as <-. by exists k, k3.
Qed.

Lemma float_eqb_trans x y z :
  (x =? y)%float = true → (y =? z)%float = true → (x =? z)%float = true.
Proof.
  rewrite !float_eqb_key.
  intros (k & Hx & Hy) (k' & Hy' & Hz).
  rewrite Hy in Hy'. injection Hy' as <-. by exists k.
Qed.

Lemma float_leb_cases x y :
  (x <=? y)%float = true → (x <? y)%float = true ∨ (x =? y)%float = true.
Proof.
  rewrite FloatAxioms.eqb_spec, FloatAxioms.leb_spec, FloatAxioms.ltb_spec.
  unfold SFeqb, SFleb, SFltb.
  destruct (SFcompare _ _) as [[]|]; try done; [by right|by left].
Qed.

Lemma eqb_nan x : (x =? nan)%float = false.
Proof.
  rewrite FloatAxioms.eqb_spec. unfold SFeqb.
  change (Prim2SF nan) with S754_nan. by destruct (Prim2SF x).
Qed.

Lemma outbids_refl h w :
  (CurrentBid (h w) =? CurrentBid (h w))%float = true → outbids h w w.
Proof. intros H. right. by split. Qed.

Lemma outbids_trans h w1 w2 w3 :
  outbids h w1 w2 → outbids h w2 w3 → outbids h w1 w3.
Proof.
  intros [H12|[H12 T12]] [H23|[H23 T23]].
  - left. by apply (float_ltb_trans _ (CurrentBid (h w2))).
  - left. by apply (float_eqb_ltb_trans _ (CurrentBid (h w2))).
  - left. apply (float_ltb_leb_trans _ (CurrentBid (h w2))); [done|].
    by apply float_eqb_leb.
  - right. split; [|lia]. by apply (float_eqb_trans _ (CurrentBid (h w2))).
Qed.

(** What one step of the scan leaves is no worse than what it had and than
    the bidder it met. *)
Lemma scanBidder_outbids h w0 x :
  (CurrentBid (h w0) =? CurrentBid (h w0))%float = true →
  (CurrentBid (h x) =? CurrentBid (h x))%float = true →
  ∃ w1, scanBidder h (Some w0) x = Some w1 ∧ (w1 = w0 ∨ w1 = x)
        ∧ outbids h w1 w0 ∧ outbids h w1 x.
Proof.
  intros H0 Hx. unfold scanBidder.
  destruct (isWinner h (Some w0) x) eqn:E.
  - exists x. split; [done|]. split; [by right|].
    split; [|by apply outbids_refl].
    apply isWinner_iff in E as [?|(cw & [= <-] & [Hlt|[Heq Ht]])]; [done| |].
    + by left.
    + right. split; [|lia]. by rewrite float_eqb_sym.
  - exists w0. split; [done|]. split; [by left|].
    split; [by apply outbids_refl|].
    simpl in E. apply orb_false_iff in E as [Hlt Hand].
    destruct (float_leb_cases _ _ (float_not_ltb _ _ H0 Hx Hlt)) as [?|Heq];
      [by left|].
    right. split; [done|]. rewrite Heq in Hand. simpl in Hand.
    by apply Z.ltb_ge in Hand.
Qed.

Lemma scan_outbids h l w0 w :
  (CurrentBid (h w0) =? CurrentBid (h w0))%float = true →
  (∀ o, o ∈ l → (CurrentBid (h o) =? CurrentBid (h o))%float = true) →
  fold_left (scanBidder h) l (Some w0) = Some w →
  outbids h w w0 ∧ ∀ o, o ∈ l → outbids h w o.
Proof.
  revert w0. induction l as [|x l IH]; intros w0 H0 Hl; simpl.
  { intros [= <-]. split; [by apply outbids_refl|].
    intros o Ho. by apply elem_of_nil in Ho. }
  destruct (scanBidder_outbids h w0 x H0) as (w1 & -> & Hw1 & H10 & H1x).
  { apply Hl, list_elem_of_here. }
  intros Hw. destruct (IH w1) as [Hw1' Hrest]; try done.
  - by destruct Hw1 as [-> | ->]; [|apply Hl, list_elem_of_here].
  - intros o Ho. by apply Hl, list_elem_of_further.
  - split; [by apply (outbids_trans _ _ w1)|].
    intros o [->|Ho]%elem_of_cons; [|by apply Hrest].
    by apply (outbids_trans _ _ w1).
Qed.

(** The scan never loses a best it has. *)
Lemma scan_Some h l w0 : is_Some (fold_left (scanBidder h) l (Some w0)).
Proof.
  revert w0. induction l as [|x l IH]; intros w0; simpl; [by eexists|].
  unfold scanBidder at 2. destruct (isWinner h (Some w0) x); apply IH.
Qed.

(** X2. [DetermineWinner] returns nothing exactly when the auction has no
    bidder, and otherwise one of the auction's bidders; an auction that
    [NewAuction] returned always has a winner, whatever the records hold. *)
Theorem DetermineWinner_member a h :
  (DetermineWinner a h = None ↔ Bidders a = [])
  ∧ (∀ w, DetermineWinner a h = Some w → w ∈ Bidders a)
  ∧ (∀ uuid_New h0 na,
       NewAuction uuid_New h0 na = inr a → is_Some (DetermineWinner a h)).
Proof.
  unfold DetermineWinner.
  assert (Bidders a ≠ [] → is_Some (fold_left (scanBidder h) (Bidders a) None))
    as Hsome.
  { destruct (Bidders a) as [|x l]; [done|]. intros _. simpl. apply scan_Some. }
  split; [|split].
  - split; [|by intros ->].
    intros E. destruct (Bidders a) as [|x l]; [done|].
    destruct Hsome as [w Hw]; [done|]. by rewrite Hw in E.
  - intros w Hw.
    destruct (scan_result h (Bidders a) None) as [E|(o & Ho & E)];
      rewrite E in Hw; [done|]. by injection Hw as <-.
  - intros uuid_New h0 na. unfold NewAuction, validateAuctionData.
    destruct (length (ConfigBidders na) <=? 1)%nat eqn:Elen; [done|].
    destruct (validateBidders _ _ _); [done|]. intros [= <-]. simpl.
    apply Hsome. apply Nat.leb_gt in Elen.
    destruct (ConfigBidders na); [simpl in Elen; lia|done].
Qed.

(** X3. When the bids of the auction are numbers, no bidder bids more than
    the winner, and no bidder with the winner's bid has an earlier time. *)
Theorem DetermineWinner_maximal a h w :
  (∀ o, o ∈ Bidders a → (CurrentBid (h o) =? CurrentBid (h o))%float = true) →
  DetermineWinner a h = Some w →
  ∀ o, o ∈ Bidders a →
    (CurrentBid (h o) <=? CurrentBid (h w))%float = true
    ∧ ((CurrentBid (h o) =? CurrentBid (h w))%float = true →
       (LastBidTime (h w) ≤ LastBidTime (h o))%Z).
Proof.
  unfold DetermineWinner. intros Hnum Hw.
  destruct (Bidders a) as [|x l]; [done|]. simpl in Hw.
  destruct (scan_outbids h l x w) as [Hx Hl]; try done.
  { apply Hnum, list_elem_of_here. }
  { intros o Ho. by apply Hnum, list_elem_of_further. }
  assert (∀ o, o ∈ x :: l → outbids h w o) as Hall.
  { intros o [->|Ho]%elem_of_cons; [done|by apply Hl]. }
  intros o Ho. destruct (Hall o Ho) as [Hlt|[Heq Ht]].
  - split; [by apply float_ltb_leb|].
    intros Heq. by rewrite (float_ltb_not_eqb _ _ Hlt) in Heq.
  - split; [by apply float_eqb_leb|done].
Qed.

(** X4. The first bidder of the stored order can bid NaN: the bid is
    accepted, and since nothing compares above or equal to NaN no later
    bidder replaces it, so [DetermineWinner] returns that bidder whatever
    the others bid. *)
Theorem PlaceBid_NaN_first_wins clock a bidder rest w :
  Bidders a = bidder :: rest →
  (PlaceBid clock a bidder nan w).1 = None
  ∧ DetermineWinner a (heap (PlaceBid clock a bidder nan w).2) = Some bidder.
Proof.
  intros E. destruct (PlaceBid_NaN_accepted clock a bidder w) as (Hok & Hnan & _).
  split; [done|]. unfold DetermineWinner. rewrite E. simpl.
  apply scan_keeps. intros o _. simpl. rewrite Hnan.
  by rewrite nan_ltb, eqb_nan.
Qed.

(** ** Bid placement, continued *)

Section MoreBidPlacement.

Variable clock : nat → Time.

Lemma bidRecorded_static bidder bidAmount w q :
  let b := heap w q in
  let b' := heap (bidRecorded clock bidder bidAmount w) q in
  ID b' = ID b ∧ Name b' = Name b ∧ StartingBid b' = StartingBid b
  ∧ MaxBid b' = MaxBid b ∧ AutoIncrement b' = AutoIncrement b.
Proof.
  cbv zeta. destruct (decide (q = bidder)) as [->|Hq].
  - by rewrite bidRecorded_bidder.
  - by rewrite bidRecorded_elsewhere.
Qed.

(** X5. [PlaceBid] never writes an identity, a name, a starting bid, a
    maximum bid or an increment; it leaves alone every record that is
    neither the bidder's nor listed in the auction, and every other record
    that carries the bidder's identity. *)
Theorem PlaceBid_frame a bidder bidAmount w :
  (∀ q,
     let b := heap w q in
     let b' := heap (PlaceBid clock a bidder bidAmount w).2 q in
     ID b' = ID b ∧ Name b' = Name b ∧ StartingBid b' = StartingBid b
     ∧ MaxBid b' = MaxBid b ∧ AutoIncrement b' = AutoIncrement b)
  ∧ (∀ q, q ≠ bidder → q ∉ Bidders a →
          heap (PlaceBid clock a bidder bidAmount w).2 q = heap w q)
  ∧ (∀ q, q ≠ bidder → ID (heap w q) = ID (heap w bidder) →
          heap (PlaceBid clock a bidder bidAmount w).2 q = heap w q).
Proof.
  rewrite PlaceBid_cases. cbv zeta.
  destruct (bidAmount <? _)%float; [done|].
  destruct (_ <? bidAmount)%float; [done|].
  destruct (bidAmount <=? _)%float; [done|].
  cbn [snd]. split; [|split].
  - intros q.
    destruct (sweep_static clock bidder (Bidders a)
                (bidRecorded clock bidder bidAmount w) q)
      as (-> & -> & -> & -> & ->).
    apply bidRecorded_static.
  - intros q Hq Hout. rewrite sweep_unvisited by done.
    by apply bidRecorded_elsewhere.
  - intros q Hq Hid. rewrite sweep_same_ID.
    + by apply bidRecorded_elsewhere.
    + by rewrite !bidRecorded_ID.
Qed.

(** X6. After an accepted bid of an amount that is a number, the same bid
    by the same bidder is rejected as not higher than the current bid, and
    changes nothing. *)
Theorem PlaceBid_repeat_rejected a bidder bidAmount w :
  (bidAmount =? bidAmount)%float = true →
  (PlaceBid clock a bidder bidAmount w).1 = None →
  PlaceBid clock a bidder bidAmount (PlaceBid clock a bidder bidAmount w).2
  = (Some (BidNotHigherThanCurrent bidAmount bidAmount),
     (PlaceBid clock a bidder bidAmount w).2).
Proof.
  intros Hnum Hok.
  destruct (PlaceBid_frame a bidder bidAmount w) as (Hstatic & _).
  destruct (Hstatic bidder) as (_ & _ & Hs & Hm & _). cbv zeta in Hs, Hm.
  assert (CurrentBid (heap (PlaceBid clock a bidder bidAmount w).2 bidder)
          = bidAmount) as Hcur.
  { rewrite (PlaceBid_accepted clock _ _ _ _ Hok).
    rewrite sweep_same_ID by done. by rewrite bidRecorded_bidder. }
  assert ((bidAmount <? StartingBid (heap w bidder))%float = false
          ∧ (MaxBid (heap w bidder) <? bidAmount)%float = false) as [E1 E2].
  { revert Hok. rewrite PlaceBid_cases. cbv zeta.
    destruct (bidAmount <? _)%float; [done|].
    by destruct (_ <? bidAmount)%float. }
  set (w' := (PlaceBid clock a bidder bidAmount w).2) in *.
  rewrite (PlaceBid_cases clock a bidder bidAmount w'). cbv zeta.
  rewrite Hs, Hm, Hcur, E1, E2.
  by rewrite (float_leb_refl _ Hnum).
Qed.

(** X7. For numbers, the three checks read positively: a bid is accepted
    exactly when it is at least the starting bid, at most the maximum bid,
    and strictly above the current bid. *)
Theorem PlaceBid_accepts_window a bidder bidAmount w :
  (bidAmount =? bidAmount)%float = true →
  (StartingBid (heap w bidder) =? StartingBid (heap w bidder))%float = true →
  (MaxBid (heap w bidder) =? MaxBid (heap w bidder))%float = true →
  (CurrentBid (heap w bidder) =? CurrentBid (heap w bidder))%float = true →
  (PlaceBid clock a bidder bidAmount w).1 = None ↔
  (StartingBid (heap w bidder) <=? bidAmount)%float = true
  ∧ (bidAmount <=? MaxBid (heap w bidder))%float = true
  ∧ (CurrentBid (heap w bidder) <? bidAmount)%float = true.
Proof.
  intros Ha Hs Hm Hc. rewrite PlaceBid_cases. cbv zeta. split.
  - destruct (bidAmount <? _)%float eqn:E1; [done|].
    destruct (_ <? bidAmount)%float eqn:E2; [done|].
    destruct (bidAmount <=? _)%float eqn:E3; [done|]. intros _.
    split; [by apply float_not_ltb|]. split; [by apply float_not_ltb|].
    by apply float_not_leb.
  - intros (H1 & H2 & H3).
    by rewrite (float_leb_not_ltb _ _ H1), (float_leb_not_ltb _ _ H2),
      (float_ltb_not_leb _ _ H3).
Qed.

(** Times written by the sweep. *)
Lemma autoIncrement_time bidder w o q :
  LastBidTime (heap (autoIncrement clock bidder w o) q)
  = LastBidTime (heap w q)
  ∨ LastBidTime (heap (autoIncrement clock bidder w o) q) = clock (ticks w)
    ∧ ticks (autoIncrement clock bidder w o) = S (ticks w).
Proof.
  destruct (decide (q = o)) as [->|Hq].
  2: { left. by rewrite autoIncrement_elsewhere. }
  pose proof (autoIncrement_visited clock bidder w o) as H. cbv zeta in H.
  destruct (_ && _); [|left; by rewrite H].
  destruct H as [-> Ht]. by right.
Qed.

Lemma sweep_time bidder l w q :
  LastBidTime (heap (fold_left (autoIncrement clock bidder) l w) q)
  = LastBidTime (heap w q)
  ∨ ∃ k, ticks w ≤ k < ticks (fold_left (autoIncrement clock bidder) l w)
      ∧ LastBidTime (heap (fold_left (autoIncrement clock bidder) l w) q)
        = clock k.
Proof.
  revert w. induction l as [|o l IH]; intros w; simpl; [by left|].
  pose proof (autoIncrement_ticks clock bidder w o) as Hmono.
  destruct (IH (autoIncrement clock bidder w o)) as [E|(k & Hk & E)].
  - rewrite E. destruct (autoIncrement_time bidder w o q) as [?|[Hq Ht]];
      [by left|].
    right. exists (ticks w). split; [|done].
    pose proof (sweep_ticks clock bidder l (autoIncrement clock bidder w o)).
    lia.
  - right. exists k. split; [lia|done].
Qed.

(** X8. An accepted [PlaceBid] reads the clock at least once; the bidder
    holds the first read; every other time in the heap is what it was or a
    read of this call. Under a clock that never runs backwards, no time
    this call writes precedes the bidder's. *)
Theorem PlaceBid_times a bidder bidAmount w :
  (PlaceBid clock a bidder bidAmount w).1 = None →
  ticks w < ticks (PlaceBid clock a bidder bidAmount w).2
  ∧ LastBidTime (heap (PlaceBid clock a bidder bidAmount w).2 bidder)
    = clock (ticks w)
  ∧ (∀ q,
       LastBidTime (heap (PlaceBid clock a bidder bidAmount w).2 q)
       = LastBidTime (heap w q)
       ∨ ∃ k, ticks w ≤ k < ticks (PlaceBid clock a bidder bidAmount w).2
           ∧ LastBidTime (heap (PlaceBid clock a bidder bidAmount w).2 q)
             = clock k)
  ∧ ((∀ i j, i ≤ j → (clock i ≤ clock j)%Z) →
     ∀ q,
       LastBidTime (heap (PlaceBid clock a bidder bidAmount w).2 q)
       = LastBidTime (heap w q)
       ∨ (LastBidTime (heap (PlaceBid clock a bidder bidAmount w).2 bidder)
          ≤ LastBidTime (heap (PlaceBid clock a bidder bidAmount w).2 q))%Z).
Proof.
  intros Hok. rewrite (PlaceBid_accepted clock _ _ _ _ Hok).
  pose proof (sweep_ticks clock bidder (Bidders a)
                (bidRecorded clock bidder bidAmount w)) as Ht.
  rewrite bidRecorded_ticks in Ht.
  assert (LastBidTime
            (heap (fold_left (autoIncrement clock bidder) (Bidders a)
                     (bidRecorded clock bidder bidAmount w)) bidder)
          = clock (ticks w)) as Hb.
  { rewrite sweep_same_ID by done. by rewrite bidRecorded_bidder. }
  assert (∀ q,
       LastBidTime
         (heap (fold_left (autoIncrement clock bidder) (Bidders a)
                  (bidRecorded clock bidder bidAmount w)) q)
       = LastBidTime (heap w q)
       ∨ ∃ k, ticks w ≤ k
              < ticks (fold_left (autoIncrement clock bidder) (Bidders a)
                         (bidRecorded clock bidder bidAmount w))
           ∧ LastBidTime
               (heap (fold_left (autoIncrement clock bidder) (Bidders a)
                        (bidRecorded clock bidder bidAmount w)) q)
             = clock k) as Hall.
  { intros q.
    destruct (sweep_time bidder (Bidders a)
                (bidRecorded clock bidder bidAmount w) q) as [E|(k & Hk & E)].
    - rewrite E. destruct (decide (q = bidder)) as [->|Hq].
      + right. exists (ticks w). split; [lia|]. by rewrite bidRecorded_bidder.
      + left. by rewrite bidRecorded_elsewhere.
    - right. exists k. rewrite bidRecorded_ticks in Hk. split; [lia|done]. }
  split; [lia|]. split; [done|]. split; [done|].
  intros Hmono q. destruct (Hall q) as [?|(k & Hk & E)]; [by left|].
  right. rewrite Hb, E. apply Hmono. lia.
Qed.

End MoreBidPlacement.

(** ** Construction, continued *)

(** X9. For parameters that are numbers, [validateBidder] accepts exactly
    the bidders with [0 < StartingBid <= MaxBid] and [0 < AutoIncrement]. *)
Theorem validateBidder_accepts b :
  (StartingBid b =? StartingBid b)%float = true →
  (MaxBid b =? MaxBid b)%float = true →
  (AutoIncrement b =? AutoIncrement b)%float = true →
  validateBidder b = None ↔
  (0 <? StartingBid b)%float = true
  ∧ (StartingBid b <=? MaxBid b)%float = true
  ∧ (0 <? AutoIncrement b)%float = true.
Proof.
  intros Hs Hm Hi. rewrite validateBidder_None.
  assert ((0 =? 0)%float = true) as H0 by reflexivity.
  split.
  - intros (H1 & H2 & H3). split; [by apply float_not_leb|].
    split; [by apply float_not_ltb|by apply float_not_leb].
  - intros (H1 & H2 & H3).
    by rewrite (float_ltb_not_leb _ _ H1), (float_leb_not_ltb _ _ H2),
      (float_ltb_not_leb _ _ H3).
Qed.

(** After a prefix that passes, the loop stops at the next bidder whose
    identity was seen, whatever its fields, or which fails its own checks. *)
Lemma validateBidders_stops h seenIDs l1 b l2 :
  validateBidders h seenIDs l1 = None →
  (is_Some (seenIDs !! ID (h b)) ∨ ID (h b) ∈ (λ p, ID (h p)) <$> l1 →
   validateBidders h seenIDs (l1 ++ b :: l2)
   = Some (DuplicateBidder (ID (h b))))
  ∧ (seenIDs !! ID (h b) = None → ID (h b) ∉ (λ p, ID (h p)) <$> l1 →
     ∀ err, validateBidder (h b) = Some err →
     validateBidders h seenIDs (l1 ++ b :: l2)
     = Some (InvalidBidderData (ID (h b)) err)).
Proof.
  revert seenIDs. induction l1 as [|x l1 IH]; intros seenIDs; simpl.
  - intros _. split.
    + intros [[v Hv]|Hin]; [by rewrite Hv|by apply elem_of_nil in Hin].
    + intros Hs _ err Herr. by rewrite Hs, Herr.
  - destruct (seenIDs !! ID (h x)) eqn:Ex; [done|].
    destruct (validateBidder (h x)) eqn:Ev; [done|].
    intros Hrest. destruct (IH _ Hrest) as [Hdup Hbad]. split.
    + intros Hseen. apply Hdup.
      destruct Hseen as [[v Hv]|[->|Hin]%elem_of_cons].
      * left. destruct (decide (ID (h x) = ID (h b))) as [->|Hne].
        -- rewrite lookup_insert_eq. by eexists.
        -- rewrite lookup_insert_ne by done. by eexists.
      * left. rewrite lookup_insert_eq. by eexists.
      * by right.
    + intros Hs Hout err Herr. apply Hbad; [|by intros ?; apply Hout; right|done].
      apply lookup_insert_None. split; [done|].
      intros E. apply Hout. rewrite <- E. apply list_elem_of_here.
Qed.

(** X10. [NewAuction] reports the first offending entry of the list: after
    a prefix of valid bidders with distinct identities, an entry whose
    identity occurs in the prefix gives the duplicate error, whatever its
    other fields, and an entry with a new identity that fails its own
    checks gives that bidder's error; what follows it is never looked at. *)
Theorem NewAuction_first_offender uuid_New h na l1 b l2 :
  ConfigBidders na = l1 ++ b :: l2 →
  1 ≤ length l1 + length l2 →
  NoDup ((λ p, ID (h p)) <$> l1) →
  (∀ p, p ∈ l1 → validateBidder (h p) = None) →
  (ID (h b) ∈ (λ p, ID (h p)) <$> l1 →
   NewAuction uuid_New h na
   = inl (InvalidAuctionData (DuplicateBidder (ID (h b)))))
  ∧ (ID (h b) ∉ (λ p, ID (h p)) <$> l1 →
     ∀ err, validateBidder (h b) = Some err →
     NewAuction uuid_New h na
     = inl (InvalidAuctionData (InvalidBidderData (ID (h b)) err))).
Proof.
  intros E Hlen Hnd Hvalid. unfold NewAuction, validateAuctionData.
  rewrite E.
  assert ((length (l1 ++ b :: l2) <=? 1)%nat = false) as ->.
  { apply Nat.leb_gt. rewrite length_app. simpl. lia. }
  assert (validateBidders h ∅ l1 = None) as Hpre.
  { apply validateBidders_None. split; [done|]. split; [|done].
    intros p _. apply lookup_empty. }
  destruct (validateBidders_stops h ∅ l1 b l2 Hpre) as [Hdup Hbad]. split.
  - intros Hin. rewrite Hdup; [done|by right].
  - intros Hout err Herr. rewrite (Hbad (lookup_empty _) Hout err Herr). done.
Qed.

(** X11. An auction that [NewAuction] returns carries the fresh identifier
    and the given list, which has at least two entries, no repeated pointer
    and no repeated identity, all of them passing [validateBidder]. *)
Theorem NewAuction_wellFormed uuid_New h na a :
  NewAuction uuid_New h na = inr a →
  AuctionID a = uuid_New ∧ Bidders a = ConfigBidders na
  ∧ wellFormed a h ∧ NoDup (Bidders a).
Proof.
  unfold NewAuction, validateAuctionData.
  destruct (length (ConfigBidders na) <=? 1)%nat eqn:Elen; [done|].
  destruct (validateBidders _ _ _) eqn:Ev; [done|]. intros [= <-]. simpl.
  apply Nat.leb_gt in Elen.
  apply validateBidders_None in Ev as (Hnd & _ & Hv).
  repeat split; try done. by apply NoDup_fmap_1 in Hnd.
Qed.

(** X12. No [PlaceBid], accepted or rejected, on this or another auction
    over the same records, breaks what [NewAuction] established: the
    identities stay distinct and every bidder still passes
    [validateBidder]. *)
Theorem PlaceBid_wellFormed clock a a' bidder bidAmount w :
  wellFormed a (heap w) →
  wellFormed a (heap (PlaceBid clock a' bidder bidAmount w).2).
Proof.
  intros (Hlen & Hnd & Hv).
  destruct (PlaceBid_frame clock a' bidder bidAmount w) as (Hstatic & _).
  split; [done|]. split.
  - erewrite list_fmap_ext; [exact Hnd|].
    intros i p _. by destruct (Hstatic p) as (-> & _).
  - intros p Hp. specialize (Hv p Hp). unfold validateBidder in *.
    by destruct (Hstatic p) as (_ & _ & -> & -> & ->).
Qed.

Section Driver.

Variable clock : nat → Time.

Lemma PlaceBid_rejected a bidder bidAmount w :
  is_Some (PlaceBid clock a bidder bidAmount w).1 →
  (PlaceBid clock a bidder bidAmount w).2 = w.
Proof.
  rewrite PlaceBid_cases. cbv zeta.
  repeat (case_match; try done). by intros [? ?].
Qed.

(** Once a bid was placed, the round reports it. *)
Lemma biddingRound_active a l w : (biddingRound clock a l true w).1 = true.
Proof.
  revert w. induction l as [|b l IH]; intros w; simpl; [done|].
  destruct (_ <=? _)%float; [|done].
  by destruct (PlaceBid clock a b _ w) as [[e|] w'].
Qed.

(** A round that reports no bid changed nothing, and found every bidder
    either past its ceiling or rejected. *)
Lemma biddingRound_idle a l w :
  (biddingRound clock a l false w).1 = false →
  (biddingRound clock a l false w).2 = w
  ∧ ∀ b, b ∈ l →
      (CurrentBid (heap w b) + AutoIncrement (heap w b)
       <=? MaxBid (heap w b))%float = false
      ∨ is_Some (PlaceBid clock a b
                   (CurrentBid (heap w b) + AutoIncrement (heap w b)) w).1.
Proof.
  induction l as [|x l IH]; simpl.
  { intros _. split; [done|]. intros b Hb. by apply elem_of_nil in Hb. }
  destruct (_ <=? _)%float eqn:Enext.
  - pose proof (PlaceBid_rejected a x
                  (CurrentBid (heap w x) + AutoIncrement (heap w x)) w) as Hrej.
    destruct (PlaceBid clock a x _ w) as [[e|] w'] eqn:Ep; simpl in Hrej.
    + rewrite Hrej by (by eexists). intros Hidle.
      destruct (IH Hidle) as [Hw Hall]. split; [done|].
      intros b [->|Hb]%elem_of_cons; [|by apply Hall].
      right. rewrite Ep. by eexists.
    + by rewrite biddingRound_active.
  - intros Hidle. destruct (IH Hidle) as [Hw Hall]. split; [done|].
    intros b [->|Hb]%elem_of_cons; [by left|by apply Hall].
Qed.

(** X13. When the test's bidding loop stops, no bidder it drives can place
    its next step: the step is above the bidder's [MaxBid], or [PlaceBid]
    rejects it. *)
Theorem biddingRounds_exit fuel a l w w' :
  biddingRounds clock fuel a l w = Some w' →
  ∀ b, b ∈ l →
    (CurrentBid (heap w' b) + AutoIncrement (heap w' b)
     <=? MaxBid (heap w' b))%float = false
    ∨ is_Some (PlaceBid clock a b
                 (CurrentBid (heap w' b) + AutoIncrement (heap w' b)) w').1.
Proof.
  revert w. induction fuel as [|fuel IH]; intros w; simpl; [done|].
  pose proof (biddingRound_idle a l w) as Hidle.
  destruct (biddingRound clock a l false w) as [[|] w1]; simpl in Hidle.
  - apply IH.
  - intros [= <-]. destruct Hidle as [-> Hall]; done.
Qed.

End Driver.

(** ** The other tables of the test *)

Lemma scenarioWorld_alike rows clock ids :
  (∀ p id now, ID (rows p id now) = id) →
  (∀ p id id' now, eraseID (rows p id now) = eraseID (rows p id' now)) →
  ids 0 ≠ ids 1 → ids 0 ≠ ids 2 → ids 1 ≠ ids 2 →
  alike (scenarioWorld rows ids clock) (scenarioWorld rows sampleIDs clock).
Proof.
  intros Hid Herase H01 H02 H12. split; [done|]. split.
  - intros q. apply Herase.
  - intros p q. simpl. unfold scenarioHeap. rewrite !Hid.
    destruct p as [|[|p]], q as [|[|q]]; simpl; rewrite ?N.eqb_refl;
      try done; apply N.eqb_neq; congruence.
Qed.

(** A table of three valid rows with distinct identifiers is accepted. *)
Lemma scenarioAuction_created rows clock ids uuid_New :
  (∀ p id now, ID (rows p id now) = id) →
  (∀ p id now, validateBidder (rows p id now) = None) →
  ids 0 ≠ ids 1 → ids 0 ≠ ids 2 → ids 1 ≠ ids 2 →
  NewAuction uuid_New (scenarioHeap rows ids clock) (mkConfig referenceBidders)
  = inr (mkAuction uuid_New referenceBidders).
Proof.
  intros Hid Hvalid H01 H02 H12. unfold NewAuction, validateAuctionData.
  cbn [ConfigBidders]. change (length referenceBidders <=? 1)%nat with false.
  assert (validateBidders (scenarioHeap rows ids clock) ∅ referenceBidders
          = None) as E; [|by rewrite E].
  apply validateBidders_None. split; [|split].
  - simpl. unfold scenarioHeap. rewrite !Hid. simpl.
    repeat (apply NoDup_cons; split); try apply NoDup_nil_2;
      rewrite ?not_elem_of_cons; repeat split; try done;
      apply not_elem_of_nil.
  - intros p _. apply lookup_empty.
  - intros p _. apply Hvalid.
Qed.

(** The runs of the second and third table with the sample identifiers. *)
Lemma sample_run2 clock uuid_New fuel :
  match biddingRounds clock (6 + fuel) (mkAuction uuid_New referenceBidders)
          referenceBidders (scenarioWorld scenario2 sampleIDs clock) with
  | Some w' =>
      DetermineWinner (mkAuction uuid_New referenceBidders) (heap w')
      = Some 0
      ∧ Name (heap w' 0) = "Riley"
      ∧ CurrentBid (heap w' 0) = 724%float
      ∧ CurrentBid (heap w' 1) = 719%float
      ∧ CurrentBid (heap w' 2) = 721%float
  | None => False
  end.
Proof. vm_compute. done. Qed.

Lemma sample_run3 clock uuid_New fuel :
  match biddingRounds clock (2 + fuel) (mkAuction uuid_New referenceBidders)
          referenceBidders (scenarioWorld scenario3 sampleIDs clock) with
  | Some w' =>
      DetermineWinner (mkAuction uuid_New referenceBidders) (heap w')
      = Some 1
      ∧ Name (heap w' 1) = "Jesse"
      ∧ CurrentBid (heap w' 0) = 3000%float
      ∧ CurrentBid (heap w' 1) = 3001%float
      ∧ CurrentBid (heap w' 2) = 2995%float
  | None => False
  end.
Proof. vm_compute. done. Qed.

(** A run with any distinct identifiers ends like the run with the sample
    ones. *)
Lemma scenario_run rows clock ids uuid_New fuel (P : World → Prop) :
  (∀ p id now, ID (rows p id now) = id) →
  (∀ p id id' now, eraseID (rows p id now) = eraseID (rows p id' now)) →
  ids 0 ≠ ids 1 → ids 0 ≠ ids 2 → ids 1 ≠ ids 2 →
  (∀ w1 w2, alike w1 w2 → P w2 → P w1) →
  match biddingRounds clock fuel (mkAuction uuid_New referenceBidders)
          referenceBidders (scenarioWorld rows sampleIDs clock) with
  | Some w' => P w'
  | None => False
  end →
  ∃ w', biddingRounds clock fuel (mkAuction uuid_New referenceBidders)
          referenceBidders (scenarioWorld rows ids clock) = Some w'
        ∧ P w'.
Proof.
  intros Hid Herase H01 H02 H12 HP Hrun.
  pose proof (biddingRounds_alike clock fuel
                (mkAuction uuid_New referenceBidders) referenceBidders _ _
                (scenarioWorld_alike rows clock ids Hid Herase H01 H02 H12))
    as Hsim.
  destruct (biddingRounds clock fuel _ _ (scenarioWorld rows ids clock))
    as [w'|]; destruct (biddingRounds clock fuel _ _
                          (scenarioWorld rows sampleIDs clock)) as [ws|];
    try done.
  exists w'. split; [done|]. by apply (HP w' ws).
Qed.

(** X14. The second and third table of [TestAuctionScenarios] end as the
    test expects, for every clock and all distinct identifiers: Riley wins
    the second after six rounds and Jesse the third after two. *)
Theorem test_scenarios_2_and_3 clock ids uuid_New fuel :
  ids 0 ≠ ids 1 → ids 0 ≠ ids 2 → ids 1 ≠ ids 2 →
  (NewAuction uuid_New (scenarioHeap scenario2 ids clock)
     (mkConfig referenceBidders) = inr (mkAuction uuid_New referenceBidders)
   ∧ ∃ w',
       biddingRounds clock (6 + fuel) (mkAuction uuid_New referenceBidders)
         referenceBidders (scenarioWorld scenario2 ids clock) = Some w'
       ∧ DetermineWinner (mkAuction uuid_New referenceBidders) (heap w')
         = Some 0
       ∧ Name (heap w' 0) = "Riley")
  ∧ (NewAuction uuid_New (scenarioHeap scenario3 ids clock)
       (mkConfig referenceBidders) = inr (mkAuction uuid_New referenceBidders)
     ∧ ∃ w',
         biddingRounds clock (2 + fuel) (mkAuction uuid_New referenceBidders)
           referenceBidders (scenarioWorld scenario3 ids clock) = Some w'
         ∧ DetermineWinner (mkAuction uuid_New referenceBidders) (heap w')
           = Some 1
         ∧ Name (heap w' 1) = "Jesse").
Proof.
  intros H01 H02 H12.
  assert (∀ rows, rows = scenario2 ∨ rows = scenario3 →
            (∀ p id now, ID (rows p id now) = id)
            ∧ (∀ p id id' now,
                 eraseID (rows p id now) = eraseID (rows p id' now))
            ∧ (∀ p id now, validateBidder (rows p id now) = None))
    as Hrows.
  { intros rows [-> | ->]; repeat split; by intros [|[|p]]. }
  destruct (Hrows scenario2 (or_introl eq_refl)) as (Hid2 & He2 & Hv2).
  destruct (Hrows scenario3 (or_intror eq_refl)) as (Hid3 & He3 & Hv3).
  split; (split; [by apply scenarioAuction_created|]).
  - apply (scenario_run scenario2 clock ids uuid_New (6 + fuel)
             (λ w', DetermineWinner (mkAuction uuid_New referenceBidders)
                      (heap w') = Some 0 ∧ Name (heap w' 0) = "Riley")
             Hid2 He2 H01 H02 H12).
    + intros w1 w2 Hw. rewrite (DetermineWinner_alike _ w1 w2 Hw).
      destruct (alike_fields w1 w2 0 Hw) as (-> & _). exact id.
    + generalize (sample_run2 clock uuid_New fuel).
      destruct (biddingRounds clock (6 + fuel) _ _ _) as [ws|];
        [|exact id].
      intros (Hwin & Hname & _). exact (conj Hwin Hname).
  - apply (scenario_run scenario3 clock ids uuid_New (2 + fuel)
             (λ w', DetermineWinner (mkAuction uuid_New referenceBidders)
                      (heap w') = Some 1 ∧ Name (heap w' 1) = "Jesse")
             Hid3 He3 H01 H02 H12).
    + intros w1 w2 Hw. rewrite (DetermineWinner_alike _ w1 w2 Hw).
      destruct (alike_fields w1 w2 1 Hw) as (-> & _). exact id.
    + generalize (sample_run3 clock uuid_New fuel).
      destruct (biddingRounds clock (2 + fuel) _ _ _) as [ws|];
        [|exact id].
      intros (Hwin & Hname & _). exact (conj Hwin Hname).
Qed.

(** ** Bidders at their ceiling *)

Lemma sweep_exhausted clock bidder l w o :
  (CurrentBid (heap w o) + AutoIncrement (heap w o)
   <=? MaxBid (heap w o))%float = false →
  heap (fold_left (autoIncrement clock bidder) l w) o = heap w o.
Proof.
  revert w. induction l as [|x l IH]; intros w Hmax; simpl; [done|].
  assert (heap (autoIncrement clock bidder w x) o = heap w o) as Hstep.
  { destruct (decide (o = x)) as [->|Hox].
    - pose proof (autoIncrement_visited clock bidder w x) as H.
      cbv zeta in H. rewrite Hmax, andb_false_r in H. by rewrite H.
    - by apply autoIncrement_elsewhere. }
  rewrite IH; [done|]. by rewrite Hstep.
Qed.

(** X15. A bidder whose next automatic step would pass its [MaxBid] is out
    of the sweep: a [PlaceBid] by any other bidder leaves its record, bid
    and time, as it was. *)
Theorem PlaceBid_exhausted clock a bidder bidAmount w o :
  o ≠ bidder →
  (CurrentBid (heap w o) + AutoIncrement (heap w o)
   <=? MaxBid (heap w o))%float = false →
  heap (PlaceBid clock a bidder bidAmount w).2 o = heap w o.
Proof.
  intros Ho Hmax. rewrite PlaceBid_cases. cbv zeta.
  destruct (bidAmount <? _)%float; [done|].
  destruct (_ <? bidAmount)%float; [done|].
  destruct (bidAmount <=? _)%float; [done|].
  cbn [snd]. rewrite sweep_exhausted.
  - by apply bidRecorded_elsewhere.
  - by rewrite bidRecorded_elsewhere.
Qed.

(** ** The stored order and the winner *)

Lemma DetermineWinner_outbids a h w :
  (∀ o, o ∈ Bidders a → (CurrentBid (h o) =? CurrentBid (h o))%float = true) →
  DetermineWinner a h = Some w →
  w ∈ Bidders a ∧ ∀ o, o ∈ Bidders a → outbids h w o.
Proof.
  unfold DetermineWinner. intros Hnum Hw. split.
  - destruct (scan_result h (Bidders a) None) as [E|(o & Ho & E)];
      rewrite E in Hw; [done|]. by injection Hw as <-.
  - destruct (Bidders a) as [|x l]; [done|]. simpl in Hw.
    destruct (scan_outbids h l x w) as [Hx Hl]; try done.
    { apply Hnum, list_elem_of_here. }
    { intros o Ho. by apply Hnum, list_elem_of_further. }
    intros o [->|Ho]%elem_of_cons; [done|by apply Hl].
Qed.

Lemma DetermineWinner_None a h :
  DetermineWinner a h = None → Bidders a = [].
Proof.
  unfold DetermineWinner. destruct (Bidders a) as [|x l]; [done|].
  change (fold_left (scanBidder h) (x :: l) None)
    with (fold_left (scanBidder h) l (Some x)).
  destruct (scan_Some h l x) as [v ->]. done.
Qed.

(** Two bidders neither of which is worse than the other are tied on the
    bid and on the time. *)
Lemma outbids_both h p q :
  outbids h p q → outbids h q p →
  (CurrentBid (h p) =? CurrentBid (h q))%float = true
  ∧ LastBidTime (h p) = LastBidTime (h q).
Proof.
  intros [H1|[H1 T1]] [H2|[H2 T2]].
  - by rewrite (float_ltb_asym _ _ H1) in H2.
  - by rewrite (float_eqb_not_ltb_sym _ _ H2) in H1.
  - by rewrite (float_eqb_not_ltb_sym _ _ H1) in H2.
  - split; [done|lia].
Qed.

(** X16. The stored order decides ties only. When the bids are numbers and
    no two bidders hold the same bid at the same time, [DetermineWinner]
    returns the same bidder for every permutation of the list. *)
Theorem DetermineWinner_order_independent a a' h :
  Bidders a' ≡ₚ Bidders a →
  (∀ o, o ∈ Bidders a → (CurrentBid (h o) =? CurrentBid (h o))%float = true) →
  (∀ p q, p ∈ Bidders a → q ∈ Bidders a → p ≠ q →
          (CurrentBid (h p) =? CurrentBid (h q))%float = true →
          LastBidTime (h p) ≠ LastBidTime (h q)) →
  DetermineWinner a' h = DetermineWinner a h.
Proof.
  intros Hperm Hnum Htie.
  assert (∀ o, o ∈ Bidders a' →
               (CurrentBid (h o) =? CurrentBid (h o))%float = true) as Hnum'.
  { intros o Ho. apply Hnum. by rewrite <- Hperm. }
  destruct (DetermineWinner a h) as [w|] eqn:Ew,
    (DetermineWinner a' h) as [w'|] eqn:Ew'.
  - destruct (DetermineWinner_outbids a h w Hnum Ew) as [Hin Hbest].
    destruct (DetermineWinner_outbids a' h w' Hnum' Ew') as [Hin' Hbest'].
    rewrite Hperm in Hin'. f_equal.
    destruct (decide (w' = w)) as [?|Hne]; [done|].
    destruct (outbids_both h w' w) as [Hbid Ht].
    + apply Hbest'. by rewrite Hperm.
    + by apply Hbest.
    + by destruct (Htie w' w Hin' Hin Hne Hbid).
  - apply DetermineWinner_None in Ew'. rewrite Ew' in Hperm.
    symmetry in Hperm. apply Permutation_nil_r in Hperm.
    unfold DetermineWinner in Ew. by rewrite Hperm in Ew.
  - apply DetermineWinner_None in Ew. rewrite Ew in Hperm.
    apply Permutation_nil_r in Hperm.
    unfold DetermineWinner in Ew'. by rewrite Hperm in Ew'.
  - done.
Qed.

(** ** What construction looks at *)

Lemma validateBidders_fields h1 h2 seenIDs l :
  (∀ p, p ∈ l →
        ID (h1 p) = ID (h2 p) ∧ StartingBid (h1 p) = StartingBid (h2 p)
        ∧ MaxBid (h1 p) = MaxBid (h2 p)
        ∧ AutoIncrement (h1 p) = AutoIncrement (h2 p)) →
  validateBidders h1 seenIDs l = validateBidders h2 seenIDs l.
Proof.
  revert seenIDs. induction l as [|x l IH]; intros seenIDs H; simpl; [done|].
  destruct (H x) as (Hid & Hs & Hm & Hi); [apply list_elem_of_here|].
  unfold validateBidder. rewrite Hid, Hs, Hm, Hi.
  destruct (seenIDs !! ID (h2 x)); [done|].
  repeat (case_match; try done).
  apply IH. intros p Hp. by apply H, list_elem_of_further.
Qed.

(** X17. [NewAuction] looks at the identity, the starting bid, the maximum
    bid and the increment of the listed bidders and at nothing else: over
    records that agree on these four fields it returns the same result,
    whatever their names, current bids and times are. In particular it
    never checks that [CurrentBid] lies between the bounds. *)
Theorem NewAuction_fields uuid_New h1 h2 na :
  (∀ p, p ∈ ConfigBidders na →
        ID (h1 p) = ID (h2 p) ∧ StartingBid (h1 p) = StartingBid (h2 p)
        ∧ MaxBid (h1 p) = MaxBid (h2 p)
        ∧ AutoIncrement (h1 p) = AutoIncrement (h2 p)) →
  NewAuction uuid_New h1 na = NewAuction uuid_New h2 na.
Proof.
  intros H. unfold NewAuction, validateAuctionData.
  destruct (length (ConfigBidders na) <=? 1)%nat; [done|].
  by rewrite (validateBidders_fields h1 h2 ∅ _ H).
Qed.

(** ** The further properties at the reference bidders *)

Lemma sample_numbers o :
  o ∈ Bidders sampleAuction →
  (CurrentBid (heap sampleWorld o) =? CurrentBid (heap sampleWorld o))%float
  = true.
Proof.
  intros Ho. unfold sampleAuction, referenceBidders in Ho. simpl in Ho.
  repeat (apply elem_of_cons in Ho as [->|Ho]; [reflexivity|]).
  by apply elem_of_nil in Ho.
Defined.

Lemma sample_wellFormed : wellFormed sampleAuction (heap sampleWorld).
Proof.
  split; [simpl; lia|]. split.
  - apply (bool_decide_unpack _). by vm_compute.
  - intros p Hp. unfold sampleAuction, referenceBidders in Hp. simpl in Hp.
    repeat (apply elem_of_cons in Hp as [->|Hp]; [reflexivity|]).
    by apply elem_of_nil in Hp.
Defined.

Lemma DetermineWinner_maximal_witness :
  (CurrentBid (heap sampleWorld pat)
   <=? CurrentBid (heap sampleWorld john))%float = true.
Proof.
  refine (proj1 (DetermineWinner_maximal sampleAuction (heap sampleWorld) john
                   sample_numbers eq_refl pat _)).
  do 2 apply list_elem_of_further. apply list_elem_of_here.
Defined.

Lemma PlaceBid_NaN_first_wins_witness :
  (PlaceBid sampleClock sampleAuction sasha nan sampleWorld).1 = None
  ∧ DetermineWinner sampleAuction
      (heap (PlaceBid sampleClock sampleAuction sasha nan sampleWorld).2)
    = Some sasha.
Proof.
  exact (PlaceBid_NaN_first_wins sampleClock sampleAuction sasha [john; pat]
           sampleWorld eq_refl).
Defined.

Lemma PlaceBid_repeat_rejected_witness :
  PlaceBid sampleClock sampleAuction sasha 53
    (PlaceBid sampleClock sampleAuction sasha 53 sampleWorld).2
  = (Some (BidNotHigherThanCurrent 53 53),
     (PlaceBid sampleClock sampleAuction sasha 53 sampleWorld).2).
Proof.
  exact (PlaceBid_repeat_rejected sampleClock sampleAuction sasha 53
           sampleWorld eq_refl eq_refl).
Defined.

Lemma PlaceBid_accepts_window_witness :
  (PlaceBid sampleClock sampleAuction sasha 53 sampleWorld).1 = None ↔
  (StartingBid (heap sampleWorld sasha) <=? 53)%float = true
  ∧ (53 <=? MaxBid (heap sampleWorld sasha))%float = true
  ∧ (CurrentBid (heap sampleWorld sasha) <? 53)%float = true.
Proof.
  exact (PlaceBid_accepts_window sampleClock sampleAuction sasha 53
           sampleWorld eq_refl eq_refl eq_refl eq_refl).
Defined.

Lemma PlaceBid_times_witness :
  LastBidTime (heap (PlaceBid sampleClock sampleAuction sasha 53
                       sampleWorld).2 sasha) = sampleClock 3.
Proof.
  exact (proj1 (proj2 (PlaceBid_times sampleClock sampleAuction sasha 53
                         sampleWorld eq_refl))).
Defined.

Lemma validateBidder_accepts_witness :
  validateBidder (heap sampleWorld sasha) = None ↔
  (0 <? StartingBid (heap sampleWorld sasha))%float = true
  ∧ (StartingBid (heap sampleWorld sasha)
     <=? MaxBid (heap sampleWorld sasha))%float = true
  ∧ (0 <? AutoIncrement (heap sampleWorld sasha))%float = true.
Proof.
  exact (validateBidder_accepts (heap sampleWorld sasha) eq_refl eq_refl
           eq_refl).
Defined.

Lemma NewAuction_first_offender_witness :
  NewAuction 9%N (heap sampleWorld) sashaTwice
  = inl (InvalidAuctionData (DuplicateBidder 1%N)).
Proof.
  refine (proj1 (NewAuction_first_offender 9%N (heap sampleWorld) sashaTwice
                   [sasha; john] sasha [] eq_refl _ _ _) _).
  - simpl. lia.
  - apply (bool_decide_unpack _). by vm_compute.
  - intros p Hp.
    repeat (apply elem_of_cons in Hp as [->|Hp]; [reflexivity|]).
    by apply elem_of_nil in Hp.
  - apply list_elem_of_here.
Defined.

Lemma NewAuction_wellFormed_witness :
  AuctionID sampleAuction = 9%N
  ∧ Bidders sampleAuction = referenceBidders
  ∧ wellFormed sampleAuction (heap sampleWorld)
  ∧ NoDup (Bidders sampleAuction).
Proof.
  apply (NewAuction_wellFormed 9%N (heap sampleWorld)
           (mkConfig referenceBidders) sampleAuction).
  by vm_compute.
Defined.

Lemma PlaceBid_wellFormed_witness :
  wellFormed sampleAuction
    (heap (PlaceBid sampleClock sampleAuction sasha 53 sampleWorld).2).
Proof.
  exact (PlaceBid_wellFormed sampleClock sampleAuction sampleAuction sasha 53
           sampleWorld sample_wellFormed).
Defined.

Lemma biddingRounds_exit_witness :
  (CurrentBid (heap sampleEnd pat) + AutoIncrement (heap sampleEnd pat)
   <=? MaxBid (heap sampleEnd pat))%float = false
  ∨ is_Some (PlaceBid sampleClock sampleAuction pat
               (CurrentBid (heap sampleEnd pat)
                + AutoIncrement (heap sampleEnd pat)) sampleEnd).1.
Proof.
  refine (biddingRounds_exit sampleClock 6 sampleAuction referenceBidders
            sampleWorld sampleEnd _ pat _).
  - by vm_compute.
  - do 2 apply list_elem_of_further. apply list_elem_of_here.
Defined.

Lemma test_scenarios_2_and_3_witness :
  ∃ w',
    biddingRounds sampleClock 6 (mkAuction 9%N referenceBidders)
      referenceBidders (scenarioWorld scenario2 sampleIDs sampleClock)
    = Some w'
    ∧ DetermineWinner (mkAuction 9%N referenceBidders) (heap w') = Some 0
    ∧ Name (heap w' 0) = "Riley".
Proof.
  refine (proj2 (proj1 (test_scenarios_2_and_3 sampleClock sampleIDs 9%N 0
                          _ _ _))); done.
Defined.

Lemma PlaceBid_exhausted_witness :
  heap (PlaceBid sampleClock sampleAuction sasha 83 sampleEnd).2 pat
  = heap sampleEnd pat.
Proof.
  apply (PlaceBid_exhausted sampleClock sampleAuction sasha 83 sampleEnd pat).
  - done.
  - by vm_compute.
Defined.

Lemma DetermineWinner_order_independent_witness :
  DetermineWinner sampleAuctionRotated (heap sampleWorld)
  = DetermineWinner sampleAuction (heap sampleWorld).
Proof.
  apply (DetermineWinner_order_independent sampleAuction sampleAuctionRotated
           (heap sampleWorld)).
  - etrans; [apply perm_swap|apply perm_skip, perm_swap].
  - exact sample_numbers.
  - intros p q Hp Hq Hne Heq.
    unfold sampleAuction, referenceBidders in Hp, Hq. simpl in Hp, Hq.
    repeat (apply elem_of_cons in Hp as [->|Hp]);
      [| | |by apply elem_of_nil in Hp];
      (repeat (apply elem_of_cons in Hq as [->|Hq]);
       [| | |by apply elem_of_nil in Hq]);
      try done; vm_compute in Heq; done.
Defined.

Lemma NewAuction_fields_witness :
  NewAuction 9%N
    (heap (PlaceBid sampleClock sampleAuction sasha 53 sampleWorld).2)
    (mkConfig referenceBidders)
  = NewAuction 9%N (heap sampleWorld) (mkConfig referenceBidders).
Proof.
  apply (NewAuction_fields 9%N
           (heap (PlaceBid sampleClock sampleAuction sasha 53 sampleWorld).2)
           (heap sampleWorld) (mkConfig referenceBidders)).
  intros p Hp. unfold referenceBidders in Hp. simpl in Hp.
  repeat (apply elem_of_cons in Hp as [->|Hp]; [by vm_compute|]).
  by apply elem_of_nil in Hp.
Defined.
